(** * dvkcli conversation memory: a shallow embedding of the store

    The Go package [memory] keeps conversations and messages in an SQLite
    database and ranks stored embeddings against a query by cosine
    similarity.  This development embeds the storage codec, the similarity
    engine, the store operations and the [/search] command of the terminal
    front end, and proves the properties the specification states about
    them.

    Conventions.
    - A Go [float32] is its 32-bit pattern, an integer in [0, 2^32);
      [math.Float32bits] and [math.Float32frombits] are then the identity
      on the representation, so NaN payloads are kept.
    - A Go [float64] is an IEEE-754 binary64 value of the Standard
      Library's [spec_float] (precision 53, [emax] 1024).
    - A Go [byte] is an integer in [0, 256); the conversion [byte(x)] is
      written [x mod 256].
    - A run-time panic (index or slice bound out of range) is [None] in the
      [option] monad.
    - A Go [time.Time] is the date and time of day that it shows in its
      zone, with the offset of that zone: the database holds a time as the
      text of these and orders a time column by that text. *)

From Stdlib Require Import ZArith Lia Bool SpecFloat.
From stdpp Require Import base option list strings sorting.

Local Open Scope Z_scope.

(** ** Serialization codec *)

Module Codec.

Abbreviation byte := Z (only parsing).
Abbreviation float32 := Z (only parsing).

(** [byte(x)]: conversion of an unsigned integer to a byte. *)
Definition to_byte (x : Z) : byte := x mod 256.

(** Well-formed values of the two machine types. *)
Definition is_byte (b : byte) : Prop := 0 <= b < 256.
Definition is_float32 (v : float32) : Prop := 0 <= v < 2 ^ 32.

Definition Float32bits (v : float32) : Z := v.
Definition Float32frombits (bits : Z) : float32 := bits.

(** [binary.LittleEndian.PutUint32(b, v)]: stores the four bytes of [v] in
    [b[0..3]]; panics when [b] is shorter than four bytes. *)
Definition PutUint32 (b : list byte) (v : Z) : option (list byte) :=
  match b with
  | _ :: _ :: _ :: _ :: rest =>
      Some (to_byte v :: to_byte (Z.shiftr v 8) :: to_byte (Z.shiftr v 16)
              :: to_byte (Z.shiftr v 24) :: rest)
  | _ => None
  end.

(** [binary.LittleEndian.Uint32(b)]: panics when [b] is shorter than four
    bytes. *)
Definition Uint32 (b : list byte) : option Z :=
  match b with
  | b0 :: b1 :: b2 :: b3 :: _ =>
      Some (Z.lor (Z.lor (Z.lor b0 (Z.shiftl b1 8)) (Z.shiftl b2 16)) (Z.shiftl b3 24))
  | _ => None
  end.

(** A write through the sub-slice [buf[off:]] changes [buf] itself. *)
Definition with_subslice (buf : list byte) (off : nat)
    (f : list byte -> option (list byte)) : option (list byte) :=
  if decide (off <= length buf)%nat
  then tl ← f (drop off buf); Some (take off buf ++ tl)
  else None.

(** The loop [for i, v := range data { ... }] of [serializeFloat32], from
    index [i] on. *)
Fixpoint serialize_loop (i : nat) (data : list float32) (buf : list byte)
    : option (list byte) :=
  match data with
  | [] => Some buf
  | v :: data' =>
      let bits := Float32bits v in
      buf' ← with_subslice buf (i * 4) (fun b => PutUint32 b bits);
      serialize_loop (S i) data' buf'
  end.

Definition serializeFloat32 (data : list float32) : option (list byte) :=
  let buf := replicate (length data * 4) 0 in
  serialize_loop 0 data buf.

(** The loop [for i := range result { ... }] of [deserializeFloat32]. *)
Definition deserializeFloat32 (data : list byte) : option (list float32) :=
  mapM (fun i : nat =>
          bits ← Uint32 (drop (i * 4) data);
          Some (Float32frombits bits))
       (seq 0 (length data / 4)).

(** The four little-endian bytes of a 32-bit pattern. *)
Definition le_bytes (v : Z) : list byte :=
  [to_byte v; to_byte (Z.shiftr v 8); to_byte (Z.shiftr v 16); to_byte (Z.shiftr v 24)].

End Codec.

(** ** Double-precision arithmetic *)

Module Float64.

Definition prec : Z := 53.
Definition emax : Z := 1024.

Abbreviation float64 := spec_float (only parsing).

Definition zero : float64 := S754_zero false.
Definition add : float64 -> float64 -> float64 := SFadd prec emax.
Definition mul : float64 -> float64 -> float64 := SFmul prec emax.
Definition div : float64 -> float64 -> float64 := SFdiv prec emax.
Definition sqrt : float64 -> float64 := SFsqrt prec emax.
(** [x == y] and [x > y] on floats; both are false when an operand is NaN. *)
Definition eqb : float64 -> float64 -> bool := SFeqb.
Definition gtb (x y : float64) : bool := SFltb y x.

(** The conversion [float64(v)] of a [float32] given by its bit pattern:
    sign bit 31, exponent field bits 30..23, fraction bits 22..0.  The
    conversion is exact. *)
Definition of_float32 (v : Z) : float64 :=
  let sign := Z.testbit v 31 in
  let e := Z.land (Z.shiftr v 23) 255 in
  let m := Z.land v 8388607 in
  if e =? 255 then (if m =? 0 then S754_infinity sign else S754_nan)
  else if e =? 0 then binary_normalize prec emax (cond_Zopp sign m) (-149) sign
  else binary_normalize prec emax (cond_Zopp sign (m + 8388608)) (e - 150) sign.

Definition sign_bit (s : bool) : Z := if s then 2147483648 else 0.

(** The bit pattern of a binary32 value: a finite [m * 2^e] with [m] on 24
    bits has exponent field [e + 150] and fraction [m - 2^23]; a subnormal
    has [e = -149] and the same formula gives field 0 and fraction [m].
    NaN is the quiet NaN without payload. *)
Definition float32_bits (x : float64) : Z :=
  match x with
  | S754_zero s => sign_bit s
  | S754_infinity s => sign_bit s + 2139095040
  | S754_nan => 2143289344
  | S754_finite s m e => sign_bit s + (e + 150) * 8388608 + (Zpos m - 8388608)
  end.

(** The conversion [float32(x)]: rounding to nearest even in binary32
    (precision 24, [emax] 128). *)
Definition to_float32 (x : float64) : Z :=
  match x with
  | S754_finite s m e => float32_bits (binary_round 24 128 s m e)
  | _ => float32_bits x
  end.

End Float64.

(** ** Similarity engine *)

Module Similarity.
Import Float64.

(** The three accumulators of the loop of [cosineSimilarity]. *)
Record acc := { dotProduct : float64; normA : float64; normB : float64 }.

Definition acc0 : acc := {| dotProduct := zero; normA := zero; normB := zero |}.

(** One iteration: [a[i]] is [x], [b[i]] is [y].  A product of two
    converted [float32] values is exact in double precision, so a compiler
    that fuses the multiplication with the addition computes the same
    sums. *)
Definition cosine_step (s : acc) (xy : Z * Z) : acc :=
  let x := of_float32 (fst xy) in
  let y := of_float32 (snd xy) in
  {| dotProduct := add (dotProduct s) (mul x y);
     normA := add (normA s) (mul x x);
     normB := add (normB s) (mul y y) |}.

Definition cosineSimilarity (a b : list Z) : float64 :=
  if negb (length a =? length b)%nat then zero
  else
    let s := fold_left cosine_step (zip a b) acc0 in
    if eqb (normA s) zero || eqb (normB s) zero then zero
    else div (dotProduct s) (mul (sqrt (normA s)) (sqrt (normB s))).

(** The quantities the specification names, each accumulated on its own in
    double precision. *)
Definition dot64 (a b : list Z) : float64 :=
  fold_left (fun s xy => add s (mul (of_float32 (fst xy)) (of_float32 (snd xy))))
            (zip a b) zero.

Definition sqnorm64 (a : list Z) : float64 :=
  fold_left (fun s x => add s (mul (of_float32 x) (of_float32 x))) a zero.

(** A vector has zero magnitude when its squared norm compares equal to 0. *)
Definition zero_magnitude (a : list Z) : bool := eqb (sqnorm64 a) zero.

(** The bit patterns of [+0] and [-0]. *)
Definition is_zero32 (v : Z) : Prop := v = 0 \/ v = 2147483648.

End Similarity.

(** ** Persistence layer *)

Module Store.
Import Codec Float64 Similarity.

(** A [time.Time] as the database holds it.  The driver writes a bound
    [time.Time] as text: the date and the time of day that the value shows
    in its own zone, then the offset of that zone from UTC.  [wall] is the
    date and time shown, counted in nanoseconds from a fixed origin, and
    [zone] the offset, in nanoseconds east of UTC.  A column that is read
    back shows the same date, time and offset. *)
Record Time := { wall : Z; zone : Z }.

(** The time that shows [w] in UTC; the times of the examples are written
    as such numbers. *)
Definition utc (w : Z) : Time := {| wall := w; zone := 0 |}.
Coercion utc : Z >-> Time.

(** The instant that a time denotes, on the time line of UTC. *)
Definition instant (t : Time) : Z := wall t - zone t.

(** The order of two offsets as text: the sign first, [+] before [-], then
    the digits of the magnitude. *)
Definition offset_le (z1 z2 : Z) : bool :=
  match 0 <=? z1, 0 <=? z2 with
  | true, true => z1 <=? z2
  | true, false => true
  | false, true => false
  | false, false => z2 <=? z1
  end.

(** The order in which SQLite compares two stored times.  A time column
    holds text and is compared as text, so the date and time shown decide,
    and the offset only between times that show the same; times that show
    the same date, time and offset are equal keys.  A later instant comes
    first when it shows an earlier time of day in a zone further west. *)
Definition text_le (a b : Time) : bool :=
  (wall a <? wall b) || ((wall a =? wall b) && offset_le (zone a) (zone b)).

(** [Embedding] is a Go slice: [None] is the nil slice, [Some l] a non-nil
    slice with elements [l] ([Some []] has length 0 but is not nil). *)
Record Message := {
  m_ID : string;
  m_ConversationID : string;
  m_Role : string;
  m_Content : string;
  m_Embedding : option (list Z);
  m_CreatedAt : Time
}.

Record Conversation := {
  c_ID : string;
  c_Title : string;
  c_CreatedAt : Time;
  c_UpdatedAt : Time;
  c_Messages : list Message
}.

Record SearchResult := {
  sr_Message : Message;
  sr_Similarity : float64
}.

(** [len(s)] of a slice. *)
Definition len {A} (s : option (list A)) : nat :=
  match s with None => 0%nat | Some l => length l end.

(** *** The database

    The two tables of the schema created by [init], each as the list of its
    rows in insertion order, which is the order an unordered scan reads them
    in.  The column [embedding BLOB] admits NULL ([None]).

    [foreign_keys] is the SQLite connection setting of that name.  SQLite
    checks declared foreign keys only on a connection where it is on, and it
    is off on a connection opened without asking for it. *)
Record conversation_row := {
  cr_id : string;
  cr_title : string;
  cr_created_at : Time;
  cr_updated_at : Time
}.

Record message_row := {
  mr_id : string;
  mr_conversation_id : string;
  mr_role : string;
  mr_content : string;
  mr_embedding : option (list Z);
  mr_created_at : Time
}.

Record DB := {
  foreign_keys : bool;
  conversations : list conversation_row;
  messages : list message_row
}.

(** The failures of a statement: the two constraints of the schema. *)
Inductive error :=
| UniqueViolation      (* PRIMARY KEY: the id is already in the table *)
| ForeignKeyViolation. (* FOREIGN KEY: no conversation with that id *)

(** [sql.Open] followed by [init] on a new database file: no option is
    passed in the data source name and [init] only creates the tables. *)
Definition new_db : DB :=
  {| foreign_keys := false; conversations := []; messages := [] |}.

Definition has_conversation (db : DB) (id : string) : bool :=
  bool_decide (id ∈ cr_id <$> conversations db).

Definition has_message (db : DB) (id : string) : bool :=
  bool_decide (id ∈ mr_id <$> messages db).

(** [INSERT INTO conversations (id, title, created_at, updated_at) VALUES ...] *)
Definition insert_conversation (db : DB) (r : conversation_row) : error + DB :=
  if has_conversation db (cr_id r) then inl UniqueViolation
  else inr {| foreign_keys := foreign_keys db;
              conversations := conversations db ++ [r];
              messages := messages db |}.

(** [INSERT INTO messages (id, conversation_id, role, content, embedding, created_at) VALUES ...] *)
Definition insert_message (db : DB) (r : message_row) : error + DB :=
  if has_message db (mr_id r) then inl UniqueViolation
  else if foreign_keys db && negb (has_conversation db (mr_conversation_id r))
  then inl ForeignKeyViolation
  else inr {| foreign_keys := foreign_keys db;
              conversations := conversations db;
              messages := messages db ++ [r] |}.

(** [UPDATE conversations SET updated_at = ? WHERE id = ?] *)
Definition touch (now : Time) (id : string) (r : conversation_row) : conversation_row :=
  if decide (cr_id r = id)
  then {| cr_id := cr_id r; cr_title := cr_title r;
          cr_created_at := cr_created_at r; cr_updated_at := now |}
  else r.

Definition update_conversation (db : DB) (now : Time) (id : string) : DB :=
  {| foreign_keys := foreign_keys db;
     conversations := touch now id <$> conversations db;
     messages := messages db |}.

(** [ORDER BY]: rows are sorted on a key, here always a time column, which
    is compared as the text it holds ([text_le]); rows with equal keys stay
    in scan order.  [le x y] says that [x] may come before [y]. *)
Fixpoint insert_sorted {A} (le : A -> A -> bool) (x : A) (l : list A) : list A :=
  match l with
  | [] => [x]
  | y :: l' => if le x y then x :: y :: l' else y :: insert_sorted le x l'
  end.

Definition order_by {A} (le : A -> A -> bool) (l : list A) : list A :=
  foldr (insert_sorted le) [] l.

(** [LIMIT ?]: a negative limit is no limit. *)
Definition sql_limit {A} (limit : Z) (l : list A) : list A :=
  if limit <? 0 then l else take (Z.to_nat limit) l.

(** [... FROM conversations ORDER BY updated_at DESC LIMIT ?] *)
Definition recent_conversations (db : DB) (limit : Z) : list conversation_row :=
  sql_limit limit
    (order_by (fun x y => text_le (cr_updated_at y) (cr_updated_at x)) (conversations db)).

(** [... FROM messages WHERE conversation_id = ? ORDER BY created_at] *)
Definition messages_of (db : DB) (id : string) : list message_row :=
  order_by (fun x y => text_le (mr_created_at x) (mr_created_at y))
    (filter (fun r => mr_conversation_id r = id) (messages db)).

(** *** Operations of [Store] *)

Definition CreateConversation (db : DB) (now : Time) (id title : string)
    : (error + Conversation) * DB :=
  match insert_conversation db
          {| cr_id := id; cr_title := title; cr_created_at := now; cr_updated_at := now |} with
  | inl e => (inl e, db)
  | inr db' =>
      (inr {| c_ID := id; c_Title := title; c_CreatedAt := now; c_UpdatedAt := now;
              c_Messages := [] |}, db')
  end.

(** The row scan of [GetConversation]: the [embedding] column is not
    selected, so [msg.Embedding] keeps its zero value, the nil slice. *)
Definition scan_message (r : message_row) : Message :=
  {| m_ID := mr_id r; m_ConversationID := mr_conversation_id r; m_Role := mr_role r;
     m_Content := mr_content r; m_Embedding := None; m_CreatedAt := mr_created_at r |}.

Definition scan_conversation (r : conversation_row) : Conversation :=
  {| c_ID := cr_id r; c_Title := cr_title r; c_CreatedAt := cr_created_at r;
     c_UpdatedAt := cr_updated_at r; c_Messages := [] |}.

(** [GetConversation]: [None] is the result [nil, nil], no conversation
    with this id. *)
Definition GetConversation (db : DB) (id : string) : option Conversation :=
  match filter (fun r => cr_id r = id) (conversations db) with
  | [] => None
  | r :: _ =>
      Some {| c_ID := cr_id r; c_Title := cr_title r; c_CreatedAt := cr_created_at r;
              c_UpdatedAt := cr_updated_at r;
              c_Messages := scan_message <$> messages_of db id |}
  end.

Definition ListConversations (db : DB) (limit : Z) : list Conversation :=
  scan_conversation <$> recent_conversations db limit.

(** The blob bound to the [embedding] parameter: the nil byte slice, which
    is stored as NULL, unless the embedding has elements. *)
Definition embedding_blob (e : option (list Z)) : option (option (list Z)) :=
  match e with
  | Some ((_ :: _) as l) => bs ← serializeFloat32 l; Some (Some bs)
  | _ => Some None
  end.

(** The row that [SaveMessage] binds to the [INSERT] statement. *)
Definition row_of_message (msg : Message) (embeddingBlob : option (list Z)) : message_row :=
  {| mr_id := m_ID msg; mr_conversation_id := m_ConversationID msg;
     mr_role := m_Role msg; mr_content := m_Content msg;
     mr_embedding := embeddingBlob; mr_created_at := m_CreatedAt msg |}.

(** [SaveMessage]: the outer [option] is [None] on a panic, the error is the
    returned [error] ([None] for [nil]). *)
Definition SaveMessage (db : DB) (now : Time) (msg : Message)
    : option (option error * DB) :=
  embeddingBlob ← embedding_blob (m_Embedding msg);
  match insert_message db (row_of_message msg embeddingBlob) with
  | inl e => Some (Some e, db)
  | inr db' => Some (None, update_conversation db' now (m_ConversationID msg))
  end.

(** The row scan of [Search]: the message with its decoded embedding and
    its score against the query. *)
Definition scan_result (queryEmbedding : list Z) (r : message_row) (e : list Z)
    : SearchResult :=
  {| sr_Message :=
       {| m_ID := mr_id r; m_ConversationID := mr_conversation_id r;
          m_Role := mr_role r; m_Content := mr_content r;
          m_Embedding := Some e; m_CreatedAt := mr_created_at r |};
     sr_Similarity := cosineSimilarity queryEmbedding e |}.

(** The loop [for rows.Next() { ... }] of [Search]: a row whose blob has
    length 0 (NULL scans to the nil slice) adds nothing.  The rows of the
    model always scan, so the [continue] on a scan error is never taken. *)
Fixpoint scan_loop (queryEmbedding : list Z) (rows : list message_row)
    (results : list SearchResult) : option (list SearchResult) :=
  match rows with
  | [] => Some results
  | r :: rows' =>
      match mr_embedding r with
      | Some ((_ :: _) as embeddingBlob) =>
          e ← deserializeFloat32 embeddingBlob;
          scan_loop queryEmbedding rows' (results ++ [scan_result queryEmbedding r e])
      | _ => scan_loop queryEmbedding rows' results
      end
  end.

(** The body of the inner loop of the sort, at indices [i] and [j]. *)
Definition sort_step {A} (gt : A -> A -> bool) (i : nat) (l : list A) (j : nat) : list A :=
  match l !! i, l !! j with
  | Some x, Some y => if gt y x then <[j := x]> (<[i := y]> l) else l
  | _, _ => l
  end.

(** [for i := 0; i < n-1; i++ { for j := i+1; j < n; j++ { ... } }] *)
Definition exchange_sort {A} (gt : A -> A -> bool) (l : list A) : list A :=
  let n := length l in
  fold_left (fun l i => fold_left (sort_step gt i) (seq (i + 1) (n - (i + 1))) l)
            (seq 0 (n - 1)) l.

Definition more_similar (x y : SearchResult) : bool :=
  gtb (sr_Similarity x) (sr_Similarity y).

(** [if len(results) > limit { results = results[:limit] }]: the slice
    expression panics on a negative bound. *)
Definition limit_results {A} (results : list A) (limit : Z) : option (list A) :=
  if Z.of_nat (length results) >? limit
  then (if limit <? 0 then None else Some (take (Z.to_nat limit) results))
  else Some results.

Definition Search (db : DB) (queryEmbedding : list Z) (limit : Z)
    : option (list SearchResult) :=
  let rows := filter (fun r => is_Some (mr_embedding r)) (messages db) in
  results ← scan_loop queryEmbedding rows [];
  limit_results (exchange_sort more_similar results) limit.

Definition GetMessageCount (db : DB) : Z := Z.of_nat (length (messages db)).

Definition GetLastConversation (db : DB) : option Conversation :=
  match recent_conversations db 1 with
  | [] => None
  | r :: _ => GetConversation db (cr_id r)
  end.

(** The databases that the operations build from a new one, on a connection
    with either setting of [foreign_keys]. *)
Inductive reachable : DB -> Prop :=
| reachable_new fk :
    reachable {| foreign_keys := fk; conversations := []; messages := [] |}
| reachable_create db now id title r db' :
    reachable db -> CreateConversation db now id title = (r, db') -> reachable db'
| reachable_save db now msg r db' :
    reachable db -> SaveMessage db now msg = Some (r, db') -> reachable db'.

End Store.

(** ** The embedding provider *)

Module Ollama.
Import Float64.

(** The client, with the one request of the model server that [Embed]
    sends: from the model name and the input text to the [Embeddings] of the
    response, or the message of the error. *)
Record Client := {
  EmbedModel : string;
  api_Embed : string -> string -> string + list (list float64)
}.

(** [Embed]: the first embedding of the response, converted to [float32]. *)
Definition Embed (c : Client) (text : string) : string + list Z :=
  match api_Embed c (EmbedModel c) text with
  | inl err => inl ("failed to generate embedding: " +:+ err)
  | inr [] => inl "no embeddings returned"
  | inr (e0 :: _) => inr (to_float32 <$> e0)
  end.

End Ollama.

(** ** The [/search] command of the terminal front end *)

Module Tui.
Import Store Ollama.

(** The part of the front end's [Model] that [searchMemory] reads: [store]
    is [None] for the nil store of a session without memory. *)
Record Model := {
  store : option DB;
  client : Client
}.

(** The [content] of the [commandResultMsg] that [searchMemory] returns,
    before it is rendered as text. *)
Inductive content :=
| MemoryNotEnabled                          (* "Memory is not enabled." *)
| ErrorGeneratingEmbedding (err : string)   (* "Error generating embedding: %v" *)
| NoMatches                                 (* "No matching conversations found." *)
| Found (results : list SearchResult).      (* "Found %d relevant messages: ..." *)

(** The calls a command makes to the provider and to the store. *)
Inductive call :=
| EmbedCall (text : string)
| SearchCall (queryEmbedding : list Z) (limit : Z).

(** [searchMemory]: the message, the model afterwards and the calls made, in
    order.  [None] is a panic.  [Search] has no error result in this model
    (input and output failures of the database are left out), so the branch
    that reports one is not taken. *)
Definition searchMemory (m : Model) (query : string)
    : option (content * Model * list call) :=
  match store m with
  | None => Some (MemoryNotEnabled, m, [])
  | Some db =>
      match Embed (client m) query with
      | inl err => Some (ErrorGeneratingEmbedding err, m, [EmbedCall query])
      | inr embedding =>
          results ← Search db embedding 5;
          Some (match results with [] => NoMatches | _ => Found results end,
                m, [EmbedCall query; SearchCall embedding 5])
      end
  end.

Definition is_search (c : call) : bool :=
  match c with SearchCall _ _ => true | EmbedCall _ => false end.

End Tui.

(** ** The notions that the properties are stated with *)

Module Props.
Import Codec Float64 Similarity Store.

(** No later element is strictly greater than an earlier one. *)
Definition descending {A} (gt : A -> A -> bool) (l : list A) : Prop :=
  forall i j x y, (i < j)%nat -> l !! i = Some x -> l !! j = Some y -> gt y x = false.



(** The rows of [messages] in a database built by the operations: ids are
    unique and a stored blob is never of length 0. *)
Definition well_stored (db : DB) : Prop :=
  NoDup (mr_id <$> messages db) /\
  Forall (fun r => mr_embedding r <> Some []) (messages db).

(** The rows that [Search] selects: [embedding IS NOT NULL]. *)
Definition embedded_rows (db : DB) : list message_row :=
  filter (fun r => is_Some (mr_embedding r)) (messages db).

(** The number of messages with a stored embedding. *)
Definition embedded_count (db : DB) : nat := length (embedded_rows db).

(** [r] is the result that the scan builds from [row]. *)
Definition scanned (q : list Z) (row : message_row) (r : SearchResult) : Prop :=
  exists blob e, mr_embedding row = Some blob /\
    deserializeFloat32 blob = Some e /\ r = scan_result q row e.

(** A value of magnitude at least [2^(L-1)], an infinity or NaN. *)
Definition at_least (L : Z) (x : spec_float) : Prop :=
  match x with
  | S754_zero _ => False
  | S754_finite _ m e => L <= Zpos (digits2_pos m) + e
  | _ => True
  end.

(** The sign of a value that has one. *)
Definition has_sign (s : bool) (x : spec_float) : Prop :=
  match x with
  | S754_zero s' | S754_infinity s' | S754_finite s' _ _ => s' = s
  | S754_nan => True
  end.

(** A positive value of magnitude at least [2^(L-1)], [+inf] or NaN. *)
Definition positive_at (L : Z) (x : spec_float) : Prop :=
  at_least L x /\ has_sign false x.

(** [getLastConversation] as the specification words it: [listConversations(1)]
    followed by a full fetch of its first element. *)
Definition GetLastConversation_spec (db : DB) : option Conversation :=
  match ListConversations db 1 with
  | [] => None
  | c :: _ => GetConversation db (c_ID c)
  end.

End Props.

(** ** A small database *)

Module Examples.
Import Codec Float64 Similarity Store Ollama Tui Props.

(** The bit pattern of the [float32] 1.0. *)
Definition one32 : Z := 1065353216.

Definition mk_message (id conv role content : string) (e : option (list Z)) (t : Time)
    : Message :=
  {| m_ID := id; m_ConversationID := conv; m_Role := role; m_Content := content;
     m_Embedding := e; m_CreatedAt := t |}.

Definition msg_a := mk_message "a" "c1" "user" "hello" (Some [0; one32]) 10.
Definition msg_b := mk_message "b" "c1" "user" "world" (Some [0; one32]) 11.
Definition msg_c := mk_message "c" "c1" "user" "hi" (Some [one32; 0]) 12.
(** The same message, once without an embedding and once with an embedding
    of length 0. *)
Definition msg_nil := mk_message "p" "c1" "assistant" "hello there" None 13.
Definition msg_empty := mk_message "p" "c1" "assistant" "hello there" (Some []) 13.
(** A message of a conversation that was never created. *)
Definition msg_orphan := mk_message "o" "ghost" "user" "lost" None 14.

(** The database after an operation, whatever it returned. *)
Definition created (db : DB) (now : Time) (id title : string) : DB :=
  snd (CreateConversation db now id title).

Definition saved (db : DB) (now : Time) (msg : Message) : DB :=
  match SaveMessage db now msg with
  | Some (_, db') => db'
  | None => db
  end.

Definition db_conv : DB := created new_db 1 "c1" "greetings".
Definition db_msgs : DB :=
  saved (saved (saved (saved db_conv 20 msg_a) 21 msg_b) 22 msg_c) 23 msg_nil.

(** A provider that is down, and one that answers with no embedding. *)
Definition client_down : Client :=
  {| EmbedModel := "nomic-embed-text";
     api_Embed := fun _ _ => inl "connection refused" |}.

Definition model_down : Model := {| store := Some db_msgs; client := client_down |}.

End Examples.

(** ** Orders on what the store returns *)

Module Ordering.
Import Store.

(** [a] comes before [b], or with it, in the order of the stored text. *)
Definition text_before (a b : Time) : Prop := text_le a b = true.

(** [a] comes before [b] in the order of the stored text, and not with it. *)
Definition text_strictly_before (a b : Time) : Prop := text_le b a = false.

(** Times that were all written in one zone. *)
Definition one_zone (ts : list Time) : Prop :=
  forall a b, a ∈ ts -> b ∈ ts -> zone a = zone b.

(** Messages in the order of their stored creation times, and in
    non-decreasing order of the instants these denote. *)
Definition by_created_at (l : list Message) : Prop :=
  StronglySorted (fun x y => text_before (m_CreatedAt x) (m_CreatedAt y)) l.

Definition chronological (l : list Message) : Prop :=
  StronglySorted (fun x y => instant (m_CreatedAt x) <= instant (m_CreatedAt y)) l.

(** Conversations in the reverse order of their stored update times, and
    in non-increasing order of the instants these denote. *)
Definition by_updated_at_desc (l : list Conversation) : Prop :=
  StronglySorted (fun x y => text_before (c_UpdatedAt y) (c_UpdatedAt x)) l.

Definition newest_first (l : list Conversation) : Prop :=
  StronglySorted (fun x y => instant (c_UpdatedAt y) <= instant (c_UpdatedAt x)) l.

(** The row of [conversations] that [CreateConversation] inserts. *)
Definition new_conversation_row (now : Time) (id title : string) : conversation_row :=
  {| cr_id := id; cr_title := title; cr_created_at := now; cr_updated_at := now |}.

End Ordering.

(** ** A database on a connection that checks foreign keys *)

Module StrictExamples.
Import Store Examples.

Definition strict_db : DB :=
  {| foreign_keys := true; conversations := []; messages := [] |}.

Definition strict_msgs : DB :=
  saved (saved (created strict_db 1 "c1" "greetings") 20 msg_a) 21 msg_orphan.

End StrictExamples.

(** ** Databases written on either side of a change of zone

    The clocks of a zone two hours east of UTC go back one hour at 03:00.
    [before_change] is 02:40 before that and [after_change] 02:10 after it,
    half an hour later. *)

Module ZoneExamples.
Import Store Examples.

Definition minute : Z := 60000000000.
Definition hour : Z := 60 * minute.

Definition before_change : Time := {| wall := 2 * hour + 40 * minute; zone := 2 * hour |}.
Definition after_change : Time := {| wall := 2 * hour + 10 * minute; zone := hour |}.

Definition msg_q := mk_message "q" "c1" "user" "first" None before_change.
Definition msg_r := mk_message "r" "c1" "assistant" "second" None after_change.

(** A conversation with a message from either side of the change. *)
Definition db_zones : DB :=
  saved (saved (created new_db before_change "c1" "greetings") before_change msg_q)
        after_change msg_r.

(** A conversation from either side of the change. *)
Definition db_two : DB :=
  created (created new_db before_change "s1" "older") after_change "s2" "newer".

End ZoneExamples.

(** ** Saving and loading from the terminal front end *)

Module Front.
Import Store Ollama.

(** [truncate]: a string is the sequence of its bytes; the slice expression
    [s[:max-3]] panics when [max - 3] is negative. *)
Definition truncate (s : string) (max : Z) : option string :=
  if Z.of_nat (String.length s) <=? max then Some s
  else if max - 3 <? 0 then None
  else Some (String.substring 0 (Z.to_nat (max - 3)) s +:+ "...").

Definition RoleUser : string := "user".

Record ChatMessage := {
  Role : string;
  Content : string;
  Time : Store.Time
}.

(** The part of the front end's [Model] that saving and loading use:
    [store] is [None] for the nil store, [MemoryEnabled] is the setting of
    that name in the configuration. *)
Record Session := {
  store : option DB;
  client : Client;
  MemoryEnabled : bool;
  chat : list ChatMessage;
  conversationID : string
}.

(** What a run of [saveToMemory] gets from outside: the identifier that
    [uuid.New] gives to the message at index [i], and the readings of the
    clock in [CreateConversation] and in [SaveMessage] for that message. *)
Record Env := {
  uuid : nat -> string;
  now_create : Store.Time;
  now_save : nat -> Store.Time
}.

(** The embedding attached to a message: only user messages are embedded,
    and a failure of [Embed] leaves the nil slice. *)
Definition embedding_for (c : Client) (msg : ChatMessage) : option (list Z) :=
  if decide (Role msg = RoleUser)
  then match Embed c (Content msg) with
       | inr embedding => Some embedding
       | inl _ => None
       end
  else None.

(** The message that the loop of [saveToMemory] builds at index [i]. *)
Definition memory_message (env : Env) (m : Session) (i : nat) (msg : ChatMessage)
    : Message :=
  {| m_ID := uuid env i; m_ConversationID := conversationID m;
     m_Role := Role msg; m_Content := Content msg;
     m_Embedding := embedding_for (client m) msg; m_CreatedAt := Time msg |}.

(** One iteration of the loop: the error of [SaveMessage] is dropped. *)
Definition save_at (env : Env) (m : Session) (db : DB) (i : nat) : option DB :=
  msg ← chat m !! i;
  r ← SaveMessage db (now_save env i) (memory_message env m i msg);
  Some (snd r).

(** "Ensure conversation exists": the results of [GetConversation] and of
    [CreateConversation] are used for nothing else. *)
Definition ensure_conversation (env : Env) (m : Session) (db : DB) : option DB :=
  match GetConversation db (conversationID m) with
  | Some _ => Some db
  | None =>
      title ← match chat m with
              | [] => Some "New Chat"
              | first :: _ => truncate (Content first) 50
              end;
      Some (snd (CreateConversation db (now_create env) (conversationID m) title))
  end.

(** [saveToMemory]: the message returned ([None] for [nil], else the count
    of a [memoryCountMsg]) and the store afterwards. *)
Definition saveToMemory (env : Env) (m : Session) : option (option Z * option DB) :=
  match store m with
  | None => Some (None, None)
  | Some db =>
      if negb (MemoryEnabled m) then Some (None, Some db)
      else
        db1 ← ensure_conversation env m db;
        db3 ← (if (2 <=? length (chat m))%nat
               then db2 ← save_at env m db1 (length (chat m) - 2);
                    save_at env m db2 (length (chat m) - 1)
               else Some db1);
        Some (Some (GetMessageCount db3), Some db3)
  end.

(** The messages that [loadLastConversation] returns. *)
Inductive loaded :=
| MemoryNotEnabled                         (* "Memory is not enabled." *)
| NoPreviousConversation                   (* "No previous conversation found." *)
| LoadConversation (conversation : Conversation).

Definition loadLastConversation (m : Session) : loaded :=
  match store m with
  | None => MemoryNotEnabled
  | Some db =>
      match GetLastConversation db with
      | None => NoPreviousConversation
      | Some conv => LoadConversation conv
      end
  end.

Definition chat_message (memMsg : Message) : ChatMessage :=
  {| Role := m_Role memMsg; Content := m_Content memMsg; Time := m_CreatedAt memMsg |}.

(** The case [loadConversationMsg] of [Update]. *)
Definition load_conversation (m : Session) (conversation : Conversation) : Session :=
  match c_Messages conversation with
  | [] => m
  | _ :: _ =>
      {| store := store m; client := client m; MemoryEnabled := MemoryEnabled m;
         chat := chat_message <$> c_Messages conversation;
         conversationID := c_ID conversation |}
  end.

(** The two messages that a run of [saveToMemory] is to save. *)
Definition last_two (m : Session) : list ChatMessage :=
  drop (length (chat m) - 2) (chat m).

(** The row that a successful iteration at index [i] stores: NULL in the
    embedding column unless the message has an embedding with elements. *)
Definition stored_row (env : Env) (m : Session) (i : nat) (msg : ChatMessage)
    : message_row :=
  let memMsg := memory_message env m i msg in
  row_of_message memMsg
    (if decide (len (m_Embedding memMsg) = 0%nat) then None
     else Some (flat_map Codec.le_bytes (default [] (m_Embedding memMsg)))).

(** The session with the store in the state [db]. *)
Definition with_store (m : Session) (db : DB) : Session :=
  {| store := Some db; client := client m; MemoryEnabled := MemoryEnabled m;
     chat := chat m; conversationID := conversationID m |}.

End Front.

(** ** A session of the front end *)

Module FrontExamples.
Import Store Ollama Examples Front.

Definition env0 : Env :=
  {| uuid := fun i => match i with 0%nat => "x0" | 1%nat => "x1" | _ => "x2" end;
     now_create := 50;
     now_save := fun i => 60 + Z.of_nat i |}.

(** A provider that answers every text with the vector [1, 0]. *)
Definition client_up : Client :=
  {| EmbedModel := "nomic-embed-text";
     api_Embed := fun _ _ =>
       inr [[S754_finite false 4503599627370496 (-52); S754_zero false]] |}.

Definition question : ChatMessage := {| Role := "user"; Content := "how are you"; Time := 40 |}.
Definition answer : ChatMessage := {| Role := "assistant"; Content := "fine"; Time := 41 |}.

(** A session on the example database, in a conversation not yet stored. *)
Definition session_up : Session :=
  {| store := Some db_msgs; client := client_up; MemoryEnabled := true;
     chat := [question; answer]; conversationID := "c9" |}.

Definition session_down : Session :=
  {| store := Some db_msgs; client := client_down; MemoryEnabled := true;
     chat := [question; answer]; conversationID := "c9" |}.

End FrontExamples.

(** * Properties *)

(** ** The codec *)

Section CodecFacts.
Import Codec.

Lemma to_byte_is_byte x : is_byte (to_byte x).
Proof. unfold is_byte, to_byte. apply Z.mod_pos_bound. lia. Qed.

Lemma length_le_bytes v : length (le_bytes v) = 4%nat.
Proof. reflexivity. Qed.

(** Reading back the four bytes written for a 32-bit pattern gives the
    pattern. *)
Lemma Uint32_le_bytes v tl :
  is_float32 v -> Uint32 (le_bytes v ++ tl) = Some v.
Proof.
  intros [Hlo Hhi]. unfold le_bytes, Uint32, to_byte. cbn [app]. f_equal.
  change 256 with (2 ^ 8).
  apply Z.bits_inj'. intros n Hn.
  rewrite !Z.lor_spec.
  rewrite !Z.shiftl_spec by lia.
  destruct (Z_lt_dec n 8) as [H8|H8].
  { rewrite Z.mod_pow2_bits_low by lia.
    rewrite (Z.testbit_neg_r _ (n - 8)), (Z.testbit_neg_r _ (n - 16)),
      (Z.testbit_neg_r _ (n - 24)) by lia.
    now rewrite !orb_false_r. }
  rewrite (Z.mod_pow2_bits_high v) by lia. cbn [orb].
  destruct (Z_lt_dec n 16) as [H16|H16].
  { rewrite Z.mod_pow2_bits_low by lia.
    rewrite (Z.testbit_neg_r _ (n - 16)), (Z.testbit_neg_r _ (n - 24)) by lia.
    rewrite Z.shiftr_spec by lia. rewrite !orb_false_r. f_equal. lia. }
  rewrite (Z.mod_pow2_bits_high _ 8 (n - 8)) by lia. cbn [orb].
  destruct (Z_lt_dec n 24) as [H24|H24].
  { rewrite Z.mod_pow2_bits_low by lia.
    rewrite (Z.testbit_neg_r _ (n - 24)) by lia.
    rewrite Z.shiftr_spec by lia. rewrite !orb_false_r. f_equal. lia. }
  rewrite (Z.mod_pow2_bits_high _ 8 (n - 16)) by lia. cbn [orb].
  destruct (Z_lt_dec n 32) as [H32|H32].
  { rewrite Z.mod_pow2_bits_low by lia.
    rewrite Z.shiftr_spec by lia. f_equal. lia. }
  rewrite (Z.mod_pow2_bits_high _ 8 (n - 24)) by lia.
  symmetry. apply Z.bits_above_log2; [lia|].
  destruct (Z.eq_dec v 0) as [->|Hv]; [cbn; lia|].
  apply Z.log2_lt_pow2; [lia|].
  assert (2 ^ 32 <= 2 ^ n) by (apply Z.pow_le_mono_r; lia). lia.
Qed.

Lemma length_flat_le_bytes data :
  length (flat_map le_bytes data) = (length data * 4)%nat.
Proof. induction data as [|v data IH]; cbn [flat_map length app le_bytes]; lia. Qed.

(** The write loop fills the zeroed buffer element by element; [pre] is the
    part already written when the loop reaches index [i]. *)
Lemma serialize_loop_spec data : forall i pre,
  length pre = (i * 4)%nat ->
  serialize_loop i data (pre ++ replicate (length data * 4) 0)
  = Some (pre ++ flat_map le_bytes data).
Proof.
  induction data as [|v data IH]; intros i pre Hpre.
  - cbn. reflexivity.
  - cbn [serialize_loop]. unfold with_subslice.
    rewrite decide_True by (rewrite length_app; lia).
    rewrite <- Hpre, drop_app_length, take_app_length.
    change (replicate (length (v :: data) * 4) 0)
      with (0 :: 0 :: 0 :: 0 :: replicate (length data * 4) 0).
    cbn [PutUint32 mbind option_bind].
    change (to_byte (Float32bits v) :: to_byte (Z.shiftr (Float32bits v) 8)
              :: to_byte (Z.shiftr (Float32bits v) 16)
              :: to_byte (Z.shiftr (Float32bits v) 24)
              :: replicate (length data * 4) 0)
      with (le_bytes v ++ replicate (length data * 4) 0).
    rewrite app_assoc, IH by (rewrite length_app, length_le_bytes; lia).
    cbn [flat_map]. now rewrite app_assoc.
Qed.

Lemma serializeFloat32_spec data :
  serializeFloat32 data = Some (flat_map le_bytes data).
Proof. apply (serialize_loop_spec data 0%nat []). reflexivity. Qed.

(** The read loop, started at index [k] with [pre] the bytes before it. *)
Lemma deserialize_loop_spec data : forall k pre,
  length pre = (k * 4)%nat ->
  Forall is_float32 data ->
  mapM (fun i : nat =>
          bits ← Uint32 (drop (i * 4) (pre ++ flat_map le_bytes data));
          Some (Float32frombits bits))
       (seq k (length data))
  = Some data.
Proof.
  induction data as [|v data IH]; intros k pre Hpre Hwf.
  - reflexivity.
  - inversion Hwf as [|? ? Hv Hwf']; subst.
    cbn [length seq mapM flat_map].
    rewrite <- Hpre at 1. rewrite drop_app_length.
    rewrite Uint32_le_bytes by assumption. cbn [mbind option_bind].
    specialize (IH (S k) (pre ++ le_bytes v)).
    rewrite <- app_assoc in IH.
    rewrite IH; [reflexivity| |assumption].
    rewrite length_app, length_le_bytes. lia.
Qed.

Lemma deserializeFloat32_spec data :
  Forall is_float32 data ->
  deserializeFloat32 (flat_map le_bytes data) = Some data.
Proof.
  intros Hwf. unfold deserializeFloat32.
  rewrite length_flat_le_bytes, Nat.div_mul by lia.
  apply (deserialize_loop_spec data 0%nat []); [reflexivity|assumption].
Qed.

End CodecFacts.

(** ** Rounding keeps a magnitude away from zero

    The facts about binary64 rounding that show when a sum of squares is
    not zero. *)

Section Magnitude.
Import Float64 Props.

Lemma digits2_pos_bounds m :
  2 ^ (Zpos (digits2_pos m) - 1) <= Zpos m < 2 ^ Zpos (digits2_pos m).
Proof.
  induction m as [p IH|p IH|]; cbn [digits2_pos].
  - rewrite Pos2Z.inj_succ. replace (Z.succ (Zpos (digits2_pos p)) - 1) with (Z.succ (Zpos (digits2_pos p) - 1)) by lia.
    rewrite !Z.pow_succ_r by lia. lia.
  - rewrite Pos2Z.inj_succ. replace (Z.succ (Zpos (digits2_pos p)) - 1) with (Z.succ (Zpos (digits2_pos p) - 1)) by lia.
    rewrite !Z.pow_succ_r by lia. lia.
  - cbn. lia.
Qed.

Lemma digits2_pos_mono a b :
  Zpos a <= Zpos b -> Zpos (digits2_pos a) <= Zpos (digits2_pos b).
Proof.
  intros Hab.
  pose proof (digits2_pos_bounds a) as [Ha _].
  pose proof (digits2_pos_bounds b) as [_ Hb].
  assert (H : 2 ^ (Zpos (digits2_pos a) - 1) < 2 ^ Zpos (digits2_pos b)) by lia.
  apply Z.pow_lt_mono_r_iff in H; lia.
Qed.

Lemma digits2_pos_unique m d :
  2 ^ (d - 1) <= Zpos m < 2 ^ d -> Zpos (digits2_pos m) = d.
Proof.
  intros [Hlo Hhi].
  pose proof (digits2_pos_bounds m) as [Hlo' Hhi'].
  assert (0 < d).
  { destruct (Z_lt_le_dec 0 d); [assumption|].
    destruct (Z.eq_dec d 0) as [->|]; [cbn in Hhi; lia|].
    rewrite (Z.pow_neg_r 2 d) in Hhi by lia. lia. }
  assert (H1 : 2 ^ (Zpos (digits2_pos m) - 1) < 2 ^ d) by lia.
  assert (H2 : 2 ^ (d - 1) < 2 ^ Zpos (digits2_pos m)) by lia.
  apply Z.pow_lt_mono_r_iff in H1; [|lia|lia].
  apply Z.pow_lt_mono_r_iff in H2; lia.
Qed.

Lemma shr_1_m r : 0 <= shr_m r -> shr_m (shr_1 r) = shr_m r / 2.
Proof.
  destruct r as [m r s]. cbn [shr_m]. intros Hm.
  rewrite <- Z.div2_div.
  destruct m as [|[p|p|]|p]; try reflexivity. lia.
Qed.

Lemma iter_shr_m p : forall r,
  0 <= shr_m r -> shr_m (SpecFloat.iter_pos shr_1 p r) = shr_m r / 2 ^ Zpos p.
Proof.
  assert (Hnn : forall x k, 0 <= x -> 0 < k -> 0 <= x / k).
  { intros. apply Z.div_pos; lia. }
  induction p as [p IH|p IH|]; intros r Hr; cbn [SpecFloat.iter_pos].
  - rewrite IH, IH, shr_1_m by
      (try rewrite IH; try rewrite shr_1_m; repeat apply Hnn; try lia; apply Z.pow_pos_nonneg; lia).
    rewrite !Z.div_div by (try apply Z.pow_pos_nonneg; lia).
    f_equal. rewrite (Pos2Z.inj_xI p).
    replace (2 * Zpos p + 1) with (1 + Zpos p + Zpos p) by lia.
    rewrite !Z.pow_add_r by lia. lia.
  - rewrite IH, IH by
      (try rewrite IH; repeat apply Hnn; try lia; apply Z.pow_pos_nonneg; lia).
    rewrite !Z.div_div by (try apply Z.pow_pos_nonneg; lia).
    f_equal. rewrite (Pos2Z.inj_xO p).
    replace (2 * Zpos p) with (Zpos p + Zpos p) by lia.
    rewrite !Z.pow_add_r by lia. lia.
  - rewrite shr_1_m by assumption. reflexivity.
Qed.

Lemma shr_fexp_pos m e :
  -1021 <= Zpos (digits2_pos m) + e ->
  exists m1 e1 r s,
    shr_fexp 53 1024 (Zpos m) e loc_Exact = (Build_shr_record (Zpos m1) r s, e1) /\
    Zpos (digits2_pos m1) + e1 = Zpos (digits2_pos m) + e.
Proof.
  intros Hbig. unfold shr_fexp, fexp, emin. cbn [Zdigits2 shr_record_of_loc].
  pose proof (digits2_pos_bounds m) as Hm.
  set (d := Zpos (digits2_pos m)) in *.
  replace (Z.max (d + e - 53) (3 - 1024 - 53) - e) with (d - 53) by lia.
  unfold shr. destruct (d - 53) as [|p|p] eqn:Hp.
  - exists m, e, false, false. auto.
  - pose proof (iter_shr_m p (Build_shr_record (Zpos m) false false)) as Hiter.
    cbn [shr_m] in Hiter. specialize (Hiter ltac:(lia)).
    destruct (SpecFloat.iter_pos shr_1 p _) as [mm r s]. cbn [shr_m] in Hiter.
    assert (Hpow : 0 < 2 ^ Zpos p) by (apply Z.pow_pos_nonneg; lia).
    assert (Hd1 : 2 ^ (d - 1) = 2 ^ 52 * 2 ^ Zpos p).
    { replace (d - 1) with (52 + Zpos p) by lia. apply Z.pow_add_r; lia. }
    assert (Hd2 : 2 ^ d = 2 ^ 53 * 2 ^ Zpos p).
    { replace d with (53 + Zpos p) by lia. apply Z.pow_add_r; lia. }
    assert (Hlo : 2 ^ 52 <= mm).
    { subst mm. apply Z.div_le_lower_bound; lia. }
    assert (Hhi : mm < 2 ^ 53).
    { subst mm. apply Z.div_lt_upper_bound; lia. }
    destruct mm as [|m1|m1]; [lia| |lia].
    exists m1, (e + Zpos p), r, s. split; [reflexivity|].
    rewrite (digits2_pos_unique m1 53) by (change (53 - 1) with 52; lia). lia.
  - exists m, e, false, false. auto.
Qed.

Lemma round_nearest_even_pos m l :
  exists m', round_nearest_even (Zpos m) l = Zpos m' /\ Zpos m <= Zpos m'.
Proof.
  destruct l as [|[]]; cbn [round_nearest_even].
  - exists m. split; [reflexivity|lia].
  - destruct (Z.even (Zpos m)).
    + exists m. split; [reflexivity|lia].
    + exists (m + 1)%positive. split; [reflexivity|lia].
  - exists m. split; [reflexivity|lia].
  - exists (m + 1)%positive. split; [reflexivity|lia].
Qed.

Lemma binary_round_aux_pos s m e :
  -1021 <= Zpos (digits2_pos m) + e ->
  at_least (Zpos (digits2_pos m) + e) (binary_round_aux 53 1024 s (Zpos m) e loc_Exact) /\
  has_sign s (binary_round_aux 53 1024 s (Zpos m) e loc_Exact).
Proof.
  intros Hbig. unfold binary_round_aux.
  destruct (shr_fexp_pos m e Hbig) as (m1 & e1 & r1 & s1 & -> & Hd1).
  cbn [shr_m].
  destruct (round_nearest_even_pos m1 (loc_of_shr_record (Build_shr_record (Zpos m1) r1 s1)))
    as (m2 & -> & Hm2).
  apply digits2_pos_mono in Hm2.
  destruct (shr_fexp_pos m2 e1) as (m3 & e3 & r3 & s3 & -> & Hd3); [lia|].
  cbn [shr_m]. destruct (e3 <=? 1024 - 53); cbn [at_least has_sign]; split; auto; lia.
Qed.

Lemma at_least_weaken L L' x : L' <= L -> at_least L x -> at_least L' x.
Proof. destruct x; cbn [at_least]; intros; (lia || auto). Qed.

Lemma digits2_pos_shift m d :
  Zpos (digits2_pos (Pos.iter xO m d)) = Zpos (digits2_pos m) + Zpos d.
Proof.
  induction d as [|d IH] using Pos.peano_ind.
  - cbn [Pos.iter digits2_pos]. lia.
  - rewrite Pos.iter_succ. cbn [digits2_pos]. lia.
Qed.

(** Aligning a mantissa to a smaller exponent keeps the magnitude. *)
Lemma shl_align_digits m e e' :
  Zpos (digits2_pos (fst (shl_align m e e'))) + snd (shl_align m e e')
  = Zpos (digits2_pos m) + e /\
  (e' <= e -> snd (shl_align m e e') = e') /\
  Zpos m <= Zpos (fst (shl_align m e e')).
Proof.
  unfold shl_align. destruct (e' - e) as [|d|d] eqn:Hd; cbn [fst snd].
  - split; [reflexivity|]. split; lia.
  - split; [reflexivity|]. split; lia.
  - rewrite digits2_pos_shift. split; [lia|]. split; [reflexivity|].
    clear Hd. induction d as [|d IH] using Pos.peano_ind.
    + cbn [Pos.iter]. lia.
    + rewrite Pos.iter_succ. lia.
Qed.

Lemma binary_round_pos s m e :
  -1021 <= Zpos (digits2_pos m) + e ->
  at_least (Zpos (digits2_pos m) + e) (binary_round 53 1024 s m e) /\
  has_sign s (binary_round 53 1024 s m e).
Proof.
  intros Hbig. unfold binary_round.
  destruct (shl_align_digits m e (fexp 53 1024 (Zpos (digits2_pos m) + e))) as (Hd & _ & _).
  destruct (shl_align m e _) as [mz ez]. cbn [fst snd] in Hd.
  rewrite <- Hd. apply binary_round_aux_pos. lia.
Qed.

Lemma digits2_pos_mul a b :
  Zpos (digits2_pos a) + Zpos (digits2_pos b) - 1 <= Zpos (digits2_pos (a * b)).
Proof.
  pose proof (digits2_pos_bounds a) as [Ha _].
  pose proof (digits2_pos_bounds b) as [Hb _].
  pose proof (digits2_pos_bounds (a * b)) as [_ Hab].
  assert (Hp : 2 ^ (Zpos (digits2_pos a) - 1 + (Zpos (digits2_pos b) - 1))
               < 2 ^ Zpos (digits2_pos (a * b))).
  { rewrite Z.pow_add_r by lia. rewrite Pos2Z.inj_mul in Hab.
    assert (0 < 2 ^ (Zpos (digits2_pos a) - 1)) by (apply Z.pow_pos_nonneg; lia).
    assert (0 < 2 ^ (Zpos (digits2_pos b) - 1)) by (apply Z.pow_pos_nonneg; lia).
    nia. }
  apply Z.pow_lt_mono_r_iff in Hp; lia.
Qed.

(** The square of a value that is not zero is positive and not zero. *)
Lemma square_pos L x :
  -510 <= L -> at_least L x ->
  at_least (2 * L - 1) (mul x x) /\ has_sign false (mul x x).
Proof.
  intros HL Hx. unfold mul.
  destruct x as [s|s| |s m e]; cbn [at_least SFmul has_sign] in *; try tauto.
  - split; [exact I|]. now destruct s.
  - replace (xorb s s) with false by now destruct s.
    pose proof (digits2_pos_mul m m).
    destruct (binary_round_aux_pos false (m * m) (e + e)) as [H1 H2]; [lia|].
    split; [|assumption]. revert H1. apply at_least_weaken. lia.
Qed.

(** Adding a positive value to [+0] or to a positive value gives a positive
    value. *)
Lemma add_positive L x y :
  -1021 <= L ->
  positive_at L x -> (y = zero \/ positive_at L y) ->
  positive_at L (add x y) /\ positive_at L (add y x).
Proof.
  intros HL [Hx Hsx] [->|[Hy Hsy]]; unfold positive_at, add, zero in *.
  - destruct x as [s|s| |s m e]; cbn [at_least has_sign SFadd] in *; try tauto.
  - destruct x as [sx|sx| |sx mx ex], y as [sy|sy| |sy my ey];
      cbn [at_least has_sign] in *; try tauto; subst; cbn [SFadd at_least has_sign];
      try tauto.
    cbn [cond_Zopp Z.add binary_normalize].
    destruct (shl_align_digits mx ex (Z.min ex ey)) as (Hdx & Hex & Hmx).
    destruct (shl_align_digits my ey (Z.min ex ey)) as (Hdy & Hey & Hmy).
    specialize (Hex ltac:(lia)). specialize (Hey ltac:(lia)).
    rewrite Hex in Hdx. rewrite Hey in Hdy.
    set (a := fst (shl_align mx ex (Z.min ex ey))) in *.
    set (b := fst (shl_align my ey (Z.min ex ey))) in *.
    assert (Ha : Zpos (digits2_pos a) <= Zpos (digits2_pos (a + b)))
      by (apply digits2_pos_mono; lia).
    assert (Hb : Zpos (digits2_pos b) <= Zpos (digits2_pos (b + a)))
      by (apply digits2_pos_mono; lia).
    destruct (binary_round_pos false (a + b) (Z.min ex ey)) as [H1 H2]; [lia|].
    destruct (binary_round_pos false (b + a) (Z.min ex ey)) as [H3 H4]; [lia|].
    rewrite (Z.min_comm ey ex).
    repeat split; try assumption.
    + revert H1. apply at_least_weaken. lia.
    + revert H3. apply at_least_weaken. lia.
Qed.

(** A [float32] is a zero, or its conversion is an infinity, NaN, or a
    value of magnitude at least [2^-149]. *)
Lemma of_float32_class v :
  Codec.is_float32 v -> Similarity.is_zero32 v \/ at_least (-148) (of_float32 v).
Proof.
  intros [Hlo Hhi]. unfold of_float32, prec, emax.
  assert (HM : Z.land v 8388607 = v mod 2 ^ 23).
  { change 8388607 with (Z.ones 23). apply Z.land_ones. lia. }
  assert (HE : Z.land (Z.shiftr v 23) 255 = (v / 2 ^ 23) mod 2 ^ 8).
  { change 255 with (Z.ones 8). rewrite Z.land_ones, Z.shiftr_div_pow2 by lia. reflexivity. }
  rewrite HM, HE. clear HM HE.
  pose proof (Z.div_mod v (2 ^ 23) ltac:(lia)) as Hv.
  pose proof (Z.mod_pos_bound v (2 ^ 23) ltac:(lia)) as HMb.
  pose proof (Z.div_mod (v / 2 ^ 23) (2 ^ 8) ltac:(lia)) as Hq.
  pose proof (Z.mod_pos_bound (v / 2 ^ 23) (2 ^ 8) ltac:(lia)) as HEb.
  assert (Ht : 0 <= v / 2 ^ 23 / 2 ^ 8 <= 1).
  { rewrite Z.div_div by lia. change (2 ^ 23 * 2 ^ 8) with (2 ^ 31). split.
    - apply Z.div_pos; lia.
    - apply Z.lt_succ_r. apply Z.div_lt_upper_bound; lia. }
  set (M := v mod 2 ^ 23) in *. set (E := (v / 2 ^ 23) mod 2 ^ 8) in *.
  destruct (Z.eqb_spec E 255) as [HE255|HE255].
  { right. destruct (M =? 0); exact I. }
  destruct (Z.eqb_spec E 0) as [HE0|HE0].
  - destruct M as [|p|p] eqn:HMp.
    + left. unfold Similarity.is_zero32. lia.
    + right.
      assert (Hr : forall s, at_least (-148) (binary_round 53 1024 s p (-149))).
      { intros s. pose proof (digits2_pos_bounds p).
        destruct (binary_round_pos s p (-149)) as [H1 _]; [lia|].
        revert H1. apply at_least_weaken. lia. }
      destruct (Z.testbit v 31); cbn [cond_Zopp Z.opp binary_normalize]; apply Hr.
    + lia.
  - right. destruct (M + 8388608) as [|p|p] eqn:Hp; [lia| |lia].
    assert (H24 : 24 <= Zpos (digits2_pos p)).
    { pose proof (digits2_pos_bounds p) as [_ Hb].
      assert (Hlt : 2 ^ 23 < 2 ^ Zpos (digits2_pos p)) by lia.
      apply Z.pow_lt_mono_r_iff in Hlt; lia. }
    assert (Hr : forall s, at_least (-148) (binary_round 53 1024 s p (E - 150))).
    { intros s. destruct (binary_round_pos s p (E - 150)) as [H1 _]; [lia|].
      revert H1. apply at_least_weaken. lia. }
    destruct (Z.testbit v 31); cbn [cond_Zopp Z.opp binary_normalize]; apply Hr.
Qed.

End Magnitude.

(** ** The similarity engine *)

Section SimilarityFacts.
Import Float64 Similarity Props.

Example of_float32_one : of_float32 1065353216 = S754_finite false 4503599627370496 (-52).
Proof. reflexivity. Qed.

Example cos_same : cosineSimilarity [1065353216; 0] [1065353216; 0]
                   = S754_finite false 4503599627370496 (-52).
Proof. vm_compute. reflexivity. Qed.

Example cos_orth : cosineSimilarity [1065353216; 0] [0; 1065353216] = zero.
Proof. vm_compute. reflexivity. Qed.

(** The single loop of [cosineSimilarity] computes the three sums that the
    specification names, each as a left-to-right double-precision sum. *)
Lemma fold_cosine_step a : forall b s,
  length a = length b ->
  fold_left cosine_step (zip a b) s
  = {| dotProduct := fold_left (fun d xy => add d (mul (of_float32 (fst xy)) (of_float32 (snd xy))))
                               (zip a b) (dotProduct s);
       normA := fold_left (fun n x => add n (mul (of_float32 x) (of_float32 x))) a (normA s);
       normB := fold_left (fun n y => add n (mul (of_float32 y) (of_float32 y))) b (normB s) |}.
Proof.
  induction a as [|x a IH]; intros [|y b] s Hlen; try discriminate.
  - destruct s; reflexivity.
  - cbn [zip zip_with fold_left]. rewrite IH by (cbn in Hlen; lia). reflexivity.
Qed.

Lemma cosine_loop_sums a b :
  length a = length b ->
  fold_left cosine_step (zip a b) acc0
  = {| dotProduct := dot64 a b; normA := sqnorm64 a; normB := sqnorm64 b |}.
Proof. intros Hlen. now rewrite fold_cosine_step. Qed.

(** Squares of zeros add up to [+0]. *)
Lemma sqnorm64_zeros a : Forall is_zero32 a -> sqnorm64 a = zero.
Proof.
  unfold sqnorm64. induction 1 as [|x a Hx _ IH]; [reflexivity|].
  cbn [fold_left]. destruct Hx as [-> | ->]; exact IH.
Qed.

Lemma zero_magnitude_zeros a : Forall is_zero32 a -> zero_magnitude a = true.
Proof. intros H. unfold zero_magnitude. now rewrite sqnorm64_zeros. Qed.

Lemma cosineSimilarity_length_mismatch a b :
  length a <> length b -> cosineSimilarity a b = zero.
Proof.
  intros Hne. unfold cosineSimilarity.
  destruct (Nat.eqb_spec (length a) (length b)); [contradiction|reflexivity].
Qed.

Lemma cosineSimilarity_zero_magnitude a b :
  zero_magnitude a = true \/ zero_magnitude b = true ->
  cosineSimilarity a b = zero.
Proof.
  intros Hz. unfold cosineSimilarity.
  destruct (Nat.eqb_spec (length a) (length b)) as [Hlen|]; [|reflexivity].
  cbn [negb]. rewrite cosine_loop_sums by assumption. cbn [normA normB].
  unfold zero_magnitude in Hz.
  destruct Hz as [-> | ->]; [reflexivity|]. now rewrite orb_true_r.
Qed.

Lemma cosineSimilarity_regular a b :
  length a = length b ->
  zero_magnitude a = false -> zero_magnitude b = false ->
  cosineSimilarity a b
  = div (dot64 a b) (mul (sqrt (sqnorm64 a)) (sqrt (sqnorm64 b))).
Proof.
  intros Hlen Ha Hb. unfold cosineSimilarity.
  rewrite (proj2 (Nat.eqb_eq _ _) Hlen). cbn [negb].
  rewrite cosine_loop_sums by assumption. cbn [normA normB dotProduct].
  unfold zero_magnitude in Ha, Hb. now rewrite Ha, Hb.
Qed.

(** *** Zero magnitude

    The squares of [float32] values neither underflow nor cancel in double
    precision: the squared norm compares equal to 0 only for a vector of
    zeros. *)

Lemma square_zero32 v :
  is_zero32 v -> mul (of_float32 v) (of_float32 v) = zero.
Proof. intros [-> | ->]; reflexivity. Qed.

Lemma positive_at_nonzero L x : positive_at L x -> eqb x zero = false.
Proof.
  intros [Hx Hs]. destruct x as [s|s| |s m e]; cbn [at_least has_sign] in *;
    try contradiction; subst; reflexivity.
Qed.

Lemma fold_square_positive a : forall s,
  Forall Codec.is_float32 a -> positive_at (-297) s ->
  positive_at (-297)
    (fold_left (fun n x => add n (mul (of_float32 x) (of_float32 x))) a s).
Proof.
  induction a as [|v a IH]; intros s Hwf Hs; [assumption|].
  inversion Hwf as [|? ? Hv Hwf']; subst. cbn [fold_left]. apply IH; [assumption|].
  refine (proj1 (add_positive (-297) s _ ltac:(lia) Hs _)).
  destruct (of_float32_class v Hv) as [Hz|Hbig].
  - left. now apply square_zero32.
  - right. apply (square_pos (-148)); [lia|assumption].
Qed.

Lemma sqnorm64_class a :
  Forall Codec.is_float32 a ->
  Forall is_zero32 a \/ positive_at (-297) (sqnorm64 a).
Proof.
  unfold sqnorm64. induction a as [|v a IH]; intros Hwf; [left; constructor|].
  inversion Hwf as [|? ? Hv Hwf']; subst. cbn [fold_left].
  destruct (of_float32_class v Hv) as [Hz|Hbig].
  - rewrite (square_zero32 v Hz). change (add zero zero) with zero.
    destruct (IH Hwf') as [Hall|Hpos]; [left; now constructor|now right].
  - right. apply fold_square_positive; [assumption|].
    refine (proj2 (add_positive (-297) _ zero ltac:(lia) _ (or_introl eq_refl))).
    apply (square_pos (-148)); [lia|assumption].
Qed.

Lemma zero_magnitude_iff a :
  Forall Codec.is_float32 a ->
  zero_magnitude a = true <-> Forall is_zero32 a.
Proof.
  intros Hwf. split; [|apply zero_magnitude_zeros].
  intros Hz. destruct (sqnorm64_class a Hwf) as [Hall|Hpos]; [assumption|].
  unfold zero_magnitude in Hz. rewrite (positive_at_nonzero _ _ Hpos) in Hz. discriminate.
Qed.

End SimilarityFacts.

(** ** The order on scores

    [<] on double-precision values is a strict order, also in the presence
    of infinities and NaN (every comparison with NaN is false). *)

Section ScoreOrder.
Import Float64.






End ScoreOrder.

(** ** The ranking sort *)

Section ExchangeSort.
Import Store Props.
Context {A : Type} (gt : A -> A -> bool).




Lemma sort_step_Permutation i j (l : list A) : sort_step gt i l j ≡ₚ l.
Proof.
  unfold sort_step.
  destruct (l !! i) as [x|] eqn:Hx; [|reflexivity].
  destruct (l !! j) as [y|] eqn:Hy; [|reflexivity].
  destruct (gt y x); [|reflexivity].
  destruct (decide (i = j)) as [->|Hne].
  { replace y with x by congruence.
    rewrite !list_insert_id; [reflexivity|assumption|].
    now rewrite list_insert_id. }
  assert (Hi : (i < length l)%nat) by (apply lookup_lt_is_Some; eauto).
  assert (Hj : (j < length l)%nat) by (apply lookup_lt_is_Some; eauto).
  apply Permutation_inj. split; [now rewrite !length_insert|].
  exists (fun p => if decide (p = j) then i else if decide (p = i) then j else p).
  split.
  - intros p q Hpq. repeat case_decide; congruence.
  - intros p. rewrite list_lookup_insert.
    rewrite length_insert.
    destruct (decide (j = p /\ (j < length l)%nat)) as [[-> _]|Hn].
    + rewrite decide_True by reflexivity. congruence.
    + rewrite decide_False by (intros ->; apply Hn; split; [reflexivity|lia]).
      rewrite list_lookup_insert.
      destruct (decide (i = p /\ (i < length l)%nat)) as [[-> _]|Hn'].
      * rewrite decide_True by reflexivity. congruence.
      * rewrite decide_False by (intros ->; apply Hn'; split; [reflexivity|lia]).
        reflexivity.
Qed.

Lemma exchange_sort_Permutation (l : list A) : exchange_sort gt l ≡ₚ l.
Proof.
  unfold exchange_sort. generalize (length l) at 1 2 as n. intros n.
  generalize (seq 0 (n - 1)) as idx. intros idx. revert l.
  induction idx as [|i idx IH]; intros l; [reflexivity|].
  cbn [fold_left]. rewrite IH.
  generalize (seq (i + 1) (n - (i + 1))) as js. intros js. revert l.
  induction js as [|j js IHj]; intros l; [reflexivity|].
  cbn [fold_left]. rewrite IHj. apply sort_step_Permutation.
Qed.

Lemma length_exchange_sort (l : list A) : length (exchange_sort gt l) = length l.
Proof. apply Permutation_length, exchange_sort_Permutation. Qed.

(** With a strict order for [gt], the sort leaves the list descending gt. *)
Hypothesis gt_trans : forall x y z, gt z y = true -> gt y x = true -> gt z x = true.
Hypothesis gt_asym : forall x y, gt y x = true -> gt x y = false.






(** A list that is already descending gt is returned as it is: no exchange
    happens, so equal elements keep their order. *)
Lemma sort_step_descending i j (l : list A) :
  descending gt l -> (i < j)%nat -> sort_step gt i l j = l.
Proof.
  intros Hd Hij. unfold sort_step.
  destruct (l !! i) as [x|] eqn:Hx; [|reflexivity].
  destruct (l !! j) as [y|] eqn:Hy; [|reflexivity].
  now rewrite (Hd i j x y Hij Hx Hy).
Qed.

Lemma inner_loop_fixed i (l : list A) :
  descending gt l -> forall c j, (i < j)%nat -> fold_left (sort_step gt i) (seq j c) l = l.
Proof.
  intros Hd. induction c as [|c IH]; intros j Hij; [reflexivity|].
  cbn [seq fold_left]. rewrite sort_step_descending by assumption.
  apply IH. lia.
Qed.

Lemma outer_loop_fixed n (l : list A) :
  descending gt l -> forall m k,
  fold_left (fun l i => fold_left (sort_step gt i) (seq (i + 1) (n - (i + 1))) l)
            (seq k m) l = l.
Proof.
  intros Hd. induction m as [|m IH]; intros k; [reflexivity|].
  cbn [seq fold_left]. rewrite inner_loop_fixed by (assumption || lia). apply IH.
Qed.

Lemma exchange_sort_fixed (l : list A) : descending gt l -> exchange_sort gt l = l.
Proof. intros Hd. apply outer_loop_fixed, Hd. Qed.

End ExchangeSort.

(** ** The store *)

Section StoreFacts.
Import Codec Float64 Similarity Store Props.

Lemma Uint32_is_Some (b : list Z) : (4 <= length b)%nat -> is_Some (Uint32 b).
Proof.
  destruct b as [|b0 [|b1 [|b2 [|b3 b]]]]; cbn; intros H; try lia. eauto.
Qed.

(** The read loop stays within the bounds of its argument: decoding never
    panics, whatever the bytes. *)
Lemma deserializeFloat32_total (data : list Z) : is_Some (deserializeFloat32 data).
Proof.
  unfold deserializeFloat32. apply mapM_is_Some_2, Forall_seq.
  intros i Hi. cbn.
  destruct (Uint32_is_Some (drop (i * 4) data)) as [bits Hbits].
  { rewrite length_drop. pose proof (Nat.div_mod_eq (length data) 4). lia. }
  rewrite Hbits. cbn. eauto.
Qed.

(** What [SaveMessage] binds for the embedding: NULL for a slice of length
    0, nil or not, and the encoding otherwise. *)
Lemma embedding_blob_spec (e : option (list Z)) :
  embedding_blob e
  = Some (if decide (len e = 0%nat) then None
          else Some (flat_map le_bytes (default [] e))).
Proof.
  destruct e as [[|x l]|]; try reflexivity.
  unfold embedding_blob. rewrite serializeFloat32_spec. reflexivity.
Qed.

Lemma embedding_blob_nonempty e blob :
  embedding_blob e = Some blob -> blob <> Some [].
Proof.
  rewrite embedding_blob_spec. intros [= <-].
  destruct e as [[|x l]|]; [discriminate| |discriminate].
  rewrite decide_False by discriminate. discriminate.
Qed.

(** The two outcomes of [SaveMessage]. *)
Lemma SaveMessage_inv db now msg r db' :
  SaveMessage db now msg = Some (r, db') ->
  exists blob, embedding_blob (m_Embedding msg) = Some blob /\
    ((exists e, insert_message db (row_of_message msg blob) = inl e /\
                r = Some e /\ db' = db) \/
     (has_message db (m_ID msg) = false /\
      (foreign_keys db = true -> has_conversation db (m_ConversationID msg) = true) /\
      r = None /\
      db' = {| foreign_keys := foreign_keys db;
               conversations := touch now (m_ConversationID msg) <$> conversations db;
               messages := messages db ++ [row_of_message msg blob] |})).
Proof.
  unfold SaveMessage. rewrite embedding_blob_spec. cbn [mbind option_bind].
  set (blob := if decide _ then _ else _).
  intros H. exists blob. split; [reflexivity|].
  unfold insert_message in *. cbn [mr_id mr_conversation_id row_of_message] in *.
  destruct (has_message db (m_ID msg)) eqn:Hm.
  { injection H as <- <-. left. eauto. }
  destruct (foreign_keys db) eqn:Hfk; cbn [andb] in *.
  - destruct (has_conversation db (m_ConversationID msg)) eqn:Hc; cbn [negb] in *.
    + injection H as <- <-. right. repeat split; auto.
    + injection H as <- <-. left. eauto.
  - injection H as <- <-. right. repeat split; auto. discriminate.
Qed.

Lemma CreateConversation_messages db now id title r db' :
  CreateConversation db now id title = (r, db') -> messages db' = messages db.
Proof.
  unfold CreateConversation, insert_conversation. cbn [cr_id].
  destruct (has_conversation db id); intros [= <- <-]; reflexivity.
Qed.

Lemma reachable_well_stored db : reachable db -> well_stored db.
Proof.
  induction 1 as [fk|db now id title r db' _ IH Hc|db now msg r db' _ IH Hs].
  - split; cbn; constructor.
  - unfold well_stored. now rewrite (CreateConversation_messages _ _ _ _ _ _ Hc).
  - destruct (SaveMessage_inv _ _ _ _ _ Hs) as (blob & Hblob & [(e & _ & _ & ->)|(Hm & _ & _ & ->)]);
      [assumption|].
    destruct IH as [Hnd Hne]. split; cbn [messages].
    + rewrite fmap_app. apply NoDup_app. split; [assumption|]. split.
      * intros x Hx Hx'. cbn in Hx'. apply list_elem_of_singleton in Hx'. subst x.
        unfold has_message in Hm. apply bool_decide_eq_false in Hm. contradiction.
      * cbn. apply NoDup_singleton.
    + apply Forall_app. split; [assumption|]. constructor; [|constructor].
      cbn. now apply embedding_blob_nonempty in Hblob.
Qed.

(** *** Search *)

Lemma scan_loop_spec q rows :
  Forall (fun r => is_Some (mr_embedding r)) rows ->
  Forall (fun r => mr_embedding r <> Some []) rows ->
  forall acc, exists rs,
    scan_loop q rows acc = Some (acc ++ rs) /\ Forall2 (scanned q) rows rs.
Proof.
  induction rows as [|row rows IH]; intros Hsome Hne acc.
  - exists []. split; [cbn; now rewrite app_nil_r|constructor].
  - inversion Hsome as [|? ? [blob Hblob] Hsome']; subst.
    inversion Hne as [|? ? Hb Hne']; subst.
    destruct blob as [|b0 blob]; [congruence|].
    destruct (deserializeFloat32_total (b0 :: blob)) as [e He].
    destruct (IH Hsome' Hne' (acc ++ [scan_result q row e])) as (rs & Hrs & Hall).
    exists (scan_result q row e :: rs). split.
    + cbn [scan_loop]. rewrite Hblob, He. cbn [mbind option_bind].
      rewrite Hrs. now rewrite <- app_assoc.
    + constructor; [|assumption]. exists (b0 :: blob), e. auto.
Qed.

Lemma limit_results_nonneg {A} (l : list A) k :
  0 <= k -> limit_results l k = Some (take (Z.to_nat k) l).
Proof.
  intros Hk. unfold limit_results.
  destruct (Z.gtb_spec (Z.of_nat (length l)) k) as [Hgt|Hle].
  - destruct (Z.ltb_spec k 0); [lia|reflexivity].
  - rewrite take_ge by lia. reflexivity.
Qed.

Lemma limit_results_negative {A} (l : list A) k :
  k < 0 -> limit_results l k = None.
Proof.
  intros Hk. unfold limit_results.
  destruct (Z.gtb_spec (Z.of_nat (length l)) k) as [Hgt|Hle]; [|lia].
  destruct (Z.ltb_spec k 0); [reflexivity|lia].
Qed.



Lemma NoDup_fmap_eq {A B} (f : A -> B) (l : list A) x y :
  NoDup (f <$> l) -> x ∈ l -> y ∈ l -> f x = f y -> x = y.
Proof.
  induction l as [|a l IH]; intros Hnd Hx Hy Hf.
  - inversion Hx.
  - rewrite fmap_cons in Hnd. apply NoDup_cons in Hnd as [Ha Hnd].
    apply elem_of_cons in Hx as [->|Hx]; apply elem_of_cons in Hy as [->|Hy];
      [reflexivity| | |now apply IH].
    + exfalso. apply Ha. rewrite Hf. now apply list_elem_of_fmap_2.
    + exfalso. apply Ha. rewrite <- Hf. now apply list_elem_of_fmap_2.
Qed.

(** The results of [Search] with a limit that is not negative. *)
Lemma Search_spec db q k :
  well_stored db -> 0 <= k ->
  exists rs, scan_loop q (embedded_rows db) [] = Some rs /\
    Forall2 (scanned q) (embedded_rows db) rs /\
    Search db q k = Some (take (Z.to_nat k) (exchange_sort more_similar rs)).
Proof.
  intros [_ Hne] Hk.
  destruct (scan_loop_spec q (embedded_rows db)) with (acc := @nil SearchResult)
    as (rs & Hrs & Hall).
  { apply Forall_forall. intros r Hr. now apply list_elem_of_filter in Hr as [? _]. }
  { apply Forall_forall. intros r Hr. apply list_elem_of_filter in Hr as [_ Hr].
    rewrite Forall_forall in Hne. now apply Hne. }
  exists rs. split; [assumption|]. split; [assumption|].
  unfold Search. fold (embedded_rows db). rewrite Hrs. cbn [mbind option_bind].
  now apply limit_results_nonneg.
Qed.

(** *** Reading conversations *)

Lemma insert_sorted_Permutation {A} (le : A -> A -> bool) x (l : list A) :
  insert_sorted le x l ≡ₚ x :: l.
Proof.
  induction l as [|y l IH]; [reflexivity|].
  cbn [insert_sorted]. destruct (le x y); [reflexivity|].
  rewrite IH. apply Permutation_swap.
Qed.

Lemma order_by_Permutation {A} (le : A -> A -> bool) (l : list A) :
  order_by le l ≡ₚ l.
Proof.
  unfold order_by. induction l as [|x l IH]; [reflexivity|].
  cbn [foldr]. now rewrite insert_sorted_Permutation, IH.
Qed.

Lemma elem_of_sql_limit {A} k (l : list A) x : x ∈ sql_limit k l -> x ∈ l.
Proof.
  unfold sql_limit. destruct (k <? 0); [trivial|]. apply subseteq_take.
Qed.

Lemma elem_of_recent_conversations db k r :
  r ∈ recent_conversations db k -> r ∈ conversations db.
Proof.
  intros Hr. apply elem_of_sql_limit in Hr.
  now rewrite order_by_Permutation in Hr.
Qed.

Lemma GetConversation_is_Some db r :
  r ∈ conversations db -> is_Some (GetConversation db (cr_id r)).
Proof.
  intros Hr. unfold GetConversation.
  destruct (filter _ (conversations db)) as [|r' rs] eqn:Hf; [|eauto].
  exfalso. now apply (filter_nil_not_elem_of _ _ r Hf).
Qed.

Lemma GetConversation_messages db id c :
  GetConversation db id = Some c -> c_Messages c = scan_message <$> messages_of db id.
Proof.
  unfold GetConversation.
  destruct (filter _ (conversations db)); [discriminate|]. now intros [= <-].
Qed.

(** *** Saving on a connection that checks foreign keys *)

Lemma SaveMessage_foreign_keys_on db now msg :
  foreign_keys db = true ->
  has_message db (m_ID msg) = false ->
  has_conversation db (m_ConversationID msg) = false ->
  SaveMessage db now msg = Some (Some ForeignKeyViolation, db).
Proof.
  intros Hfk Hm Hc. unfold SaveMessage. rewrite embedding_blob_spec.
  cbn [mbind option_bind]. unfold insert_message.
  cbn [row_of_message mr_id mr_conversation_id]. now rewrite Hm, Hfk, Hc.
Qed.

(** *** The example database *)

Lemma reachable_created db now id title :
  reachable db -> reachable (Examples.created db now id title).
Proof.
  intros H. unfold Examples.created.
  destruct (CreateConversation db now id title) as [r db'] eqn:Hc.
  exact (reachable_create db now id title r db' H Hc).
Qed.

Lemma reachable_saved db now msg :
  reachable db -> reachable (Examples.saved db now msg).
Proof.
  intros H. unfold Examples.saved.
  destruct (SaveMessage db now msg) as [[r db']|] eqn:Hs; [|assumption].
  exact (reachable_save db now msg r db' H Hs).
Qed.

Lemma reachable_db_msgs : reachable Examples.db_msgs.
Proof.
  unfold Examples.db_msgs, Examples.db_conv.
  repeat apply reachable_saved. apply reachable_created. apply (reachable_new false).
Qed.

End StoreFacts.

(** * The claims of the specification *)

Section Claims.
Import Codec Float64 Similarity Store Ollama Tui Props Examples.



(** A negative limit is not a number of results, and [Search] has no guard
    for it: the slice expression [results[:limit]] panics. *)
Lemma Search_negative_limit_panics :
  embedded_count db_msgs = 3%nat /\ Search db_msgs [one32; 0] (-1) = None.
Proof. split; [reflexivity|]. vm_compute. reflexivity. Qed.

(** C2.  For every sequence of 32-bit patterns, the NaN and infinity
    patterns and the empty sequence included, decoding the encoding gives
    the sequence back, pattern for pattern; and the empty sequence encodes
    to the empty byte sequence. *)
Theorem codec_round_trip v :
  Forall is_float32 v ->
  serializeFloat32 v ≫= deserializeFloat32 = Some v /\
  serializeFloat32 [] = Some [].
Proof.
  intros Hwf. split; [|reflexivity].
  rewrite serializeFloat32_spec. cbn [mbind option_bind].
  now apply deserializeFloat32_spec.
Qed.

(** A quiet NaN with a payload, the two infinities, the two zeros, 1.0 and
    the least subnormal. *)
Lemma codec_round_trip_witness :
  serializeFloat32 [2143289345; 2139095040; 4286578688; 0; 2147483648; one32; 1]
    ≫= deserializeFloat32
  = Some [2143289345; 2139095040; 4286578688; 0; 2147483648; one32; 1] /\
  serializeFloat32 [] = Some [].
Proof.
  apply (codec_round_trip [2143289345; 2139095040; 4286578688; 0; 2147483648; one32; 1]).
  repeat constructor; unfold is_float32, one32; lia.
Defined.

(** C4.  [cosineSimilarity] is exactly [0] for vectors of unequal length
    and whenever one of the vectors has zero magnitude, which is the case
    exactly of the all-zero vectors, the empty vector among them; in
    particular on [[], []] and on [[0,0], [1,1]].  Otherwise it is the dot
    product over the product of the norms, each sum accumulated in double
    precision. *)
Theorem cosineSimilarity_degenerate a b :
  Forall is_float32 a -> Forall is_float32 b ->
  (length a <> length b -> cosineSimilarity a b = zero) /\
  (zero_magnitude a = true \/ zero_magnitude b = true -> cosineSimilarity a b = zero) /\
  (zero_magnitude a = true <-> Forall is_zero32 a) /\
  (zero_magnitude b = true <-> Forall is_zero32 b) /\
  zero_magnitude [] = true /\
  cosineSimilarity [] [] = zero /\
  cosineSimilarity [0; 0] [one32; one32] = zero /\
  (length a = length b -> ~ Forall is_zero32 a -> ~ Forall is_zero32 b ->
   cosineSimilarity a b = div (dot64 a b) (mul (sqrt (sqnorm64 a)) (sqrt (sqnorm64 b)))).
Proof.
  intros Ha Hb.
  pose proof (zero_magnitude_iff a Ha) as Hza.
  pose proof (zero_magnitude_iff b Hb) as Hzb.
  split; [apply cosineSimilarity_length_mismatch|].
  split; [apply cosineSimilarity_zero_magnitude|].
  split; [assumption|]. split; [assumption|].
  split; [reflexivity|]. split; [reflexivity|]. split; [reflexivity|].
  intros Hlen Hna Hnb. apply cosineSimilarity_regular; [assumption| |].
  - destruct (zero_magnitude a); [|reflexivity]. exfalso. apply Hna, Hza. reflexivity.
  - destruct (zero_magnitude b); [|reflexivity]. exfalso. apply Hnb, Hzb. reflexivity.
Qed.

Lemma cosineSimilarity_degenerate_witness :
  cosineSimilarity [one32] [one32; 0] = zero /\
  cosineSimilarity [0; 2147483648] [one32; one32] = zero /\
  cosineSimilarity [one32; 0] [one32; one32]
  = div (dot64 [one32; 0] [one32; one32])
        (mul (sqrt (sqnorm64 [one32; 0])) (sqrt (sqnorm64 [one32; one32]))).
Proof.
  assert (Hwf : forall l, forallb (fun v => (0 <=? v) && (v <? 2 ^ 32)) l = true ->
                  Forall is_float32 l).
  { intros l Hl. apply Forall_forall. intros v Hv.
    rewrite forallb_forall in Hl. apply list_elem_of_In, Hl in Hv.
    unfold is_float32. lia. }
  split; [|split].
  - destruct (cosineSimilarity_degenerate [one32] [one32; 0]) as (H & _);
      [now apply Hwf..|].
    apply H. cbn [length]. lia.
  - destruct (cosineSimilarity_degenerate [0; 2147483648] [one32; one32])
      as (_ & H & Hz & _); [now apply Hwf..|].
    apply H. left. apply Hz.
    constructor; [unfold is_zero32; lia|]. constructor; [unfold is_zero32; lia|].
    constructor.
  - destruct (cosineSimilarity_degenerate [one32; 0] [one32; one32])
      as (_ & _ & _ & _ & _ & _ & _ & H); [now apply Hwf..|].
    apply H; [reflexivity| |]; intros Hall; inversion Hall as [|? ? [Hx|Hx] _];
      discriminate Hx.
Defined.

(** C3.  The schema declares the foreign key of [messages], but the
    connection never switches its enforcement on: saving a message of a
    conversation that does not exist succeeds, and the message is stored. *)
Theorem SaveMessage_orphan_is_stored :
  has_conversation new_db (m_ConversationID msg_orphan) = false /\
  SaveMessage new_db 30 msg_orphan
  = Some (None, {| foreign_keys := false; conversations := [];
                   messages := [row_of_message msg_orphan None] |}) /\
  has_message (saved new_db 30 msg_orphan) (m_ID msg_orphan) = true.
Proof. repeat split. Qed.

(** C5 (as amended).  A successful [SaveMessage] appends one row.  Its
    embedding column is NULL when the embedding has length 0, absent or
    not; it is the encoding, four bytes an element and so not NULL and not
    of length 0, when the embedding has elements. *)
Theorem SaveMessage_embedding_marker db now msg db' :
  SaveMessage db now msg = Some (None, db') ->
  exists row,
    messages db' = messages db ++ [row] /\
    (len (m_Embedding msg) = 0%nat -> mr_embedding row = None) /\
    (forall l, m_Embedding msg = Some l -> l <> [] ->
       mr_embedding row = Some (flat_map le_bytes l) /\
       length (flat_map le_bytes l) = (length l * 4)%nat /\
       flat_map le_bytes l <> []).
Proof.
  intros Hs.
  destruct (SaveMessage_inv _ _ _ _ _ Hs) as (blob & Hblob & [(e & _ & [=] & _)|(_ & _ & _ & ->)]).
  rewrite embedding_blob_spec in Hblob. injection Hblob as <-.
  eexists. split; [reflexivity|]. cbn [row_of_message mr_embedding]. split.
  - intros Hlen. now rewrite decide_True.
  - intros l -> Hl. destruct l as [|x l]; [congruence|].
    rewrite decide_False by discriminate.
    split; [reflexivity|]. split; [apply length_flat_le_bytes|discriminate].
Qed.

Lemma SaveMessage_embedding_marker_witness :
  exists row,
    messages (saved db_conv 20 msg_a) = messages db_conv ++ [row] /\
    (len (m_Embedding msg_a) = 0%nat -> mr_embedding row = None) /\
    (forall l, m_Embedding msg_a = Some l -> l <> [] ->
       mr_embedding row = Some (flat_map le_bytes l) /\
       length (flat_map le_bytes l) = (length l * 4)%nat /\
       flat_map le_bytes l <> []).
Proof.
  apply (SaveMessage_embedding_marker db_conv 20 msg_a (saved db_conv 20 msg_a)).
  vm_compute. reflexivity.
Defined.

(** C5, as stated, fails: a message without an embedding and the same
    message with an embedding of length 0 are stored as the same row, with
    NULL in the embedding column. *)
Lemma SaveMessage_nil_and_empty_same :
  m_Embedding msg_nil = None /\ m_Embedding msg_empty = Some [] /\
  SaveMessage db_conv 23 msg_nil = SaveMessage db_conv 23 msg_empty /\
  (exists db', SaveMessage db_conv 23 msg_empty = Some (None, db') /\
     mr_embedding <$> last (messages db') = Some None).
Proof.
  split; [reflexivity|]. split; [reflexivity|]. split; [reflexivity|].
  eexists. split; reflexivity.
Qed.

(** C6 (as amended).  When no scanned message is outscored by a message
    scanned after it, the sort exchanges nothing and [Search] returns the
    first [k] scanned results in scan order, tied ones included. *)
Theorem Search_keeps_descending_scan_order db q k rs :
  0 <= k ->
  scan_loop q (embedded_rows db) [] = Some rs ->
  descending more_similar rs ->
  Search db q k = Some (take (Z.to_nat k) rs).
Proof.
  intros Hk Hscan Hd. unfold Search. fold (embedded_rows db).
  rewrite Hscan. cbn [mbind option_bind].
  rewrite exchange_sort_fixed by assumption.
  now apply limit_results_nonneg.
Qed.

Lemma Search_keeps_descending_scan_order_witness :
  Search (saved (saved db_conv 20 msg_a) 21 msg_b) [one32; 0] 5
  = Some (take (Z.to_nat 5)
            [scan_result [one32; 0] (row_of_message msg_a (Some [0; 0; 0; 0; 0; 0; 128; 63]))
               [0; one32];
             scan_result [one32; 0] (row_of_message msg_b (Some [0; 0; 0; 0; 0; 0; 128; 63]))
               [0; one32]]).
Proof.
  apply (Search_keeps_descending_scan_order
           (saved (saved db_conv 20 msg_a) 21 msg_b) [one32; 0] 5); [lia|reflexivity|].
  intros i j x y Hij Hx Hy.
  destruct i as [|[|i]], j as [|[|j]]; try lia; try discriminate.
  injection Hx as <-. injection Hy as <-. reflexivity.
Defined.

(** C6, as stated, fails: [msg_a] and [msg_b] are scanned in this order and
    get the same score, [msg_c] is scanned last with a higher score, and
    [Search] returns [msg_c], [msg_b], [msg_a]. *)
Lemma Search_ties_reversed :
  exists ra rb rc,
    scan_loop [one32; 0] (embedded_rows db_msgs) [] = Some [ra; rb; rc] /\
    m_ID (sr_Message ra) = "a" /\ m_ID (sr_Message rb) = "b" /\
    sr_Similarity ra = sr_Similarity rb /\
    Search db_msgs [one32; 0] 5 = Some [rc; rb; ra].
Proof.
  do 3 eexists. split; [vm_compute; reflexivity|].
  repeat split; vm_compute; reflexivity.
Qed.

(** C7.  [GetLastConversation] returns what the first element of
    [ListConversations(1)], fetched in full by [GetConversation], gives;
    and it returns no conversation exactly when [ListConversations(1)] is
    empty. *)
Theorem GetLastConversation_refines db :
  GetLastConversation db = GetLastConversation_spec db /\
  (GetLastConversation db = None <-> ListConversations db 1 = []).
Proof.
  unfold GetLastConversation, GetLastConversation_spec, ListConversations.
  destruct (recent_conversations db 1) as [|r rs] eqn:Hrec; cbn [fmap list_fmap].
  - split; [reflexivity|]. split; reflexivity.
  - cbn [scan_conversation c_ID]. split; [reflexivity|].
    split; [|discriminate]. intros Hnone.
    destruct (GetConversation_is_Some db r) as [c Hc].
    + apply (elem_of_recent_conversations db 1). rewrite Hrec. left.
    + congruence.
Qed.

(** C8.  When the provider fails to embed the query, [searchMemory] makes
    no scan of the stored messages and leaves the model, with its store, as
    it was; with a store attached the provider is asked, nothing else is
    called, and the answer is the embedding error.  (Without a store the
    provider is not asked at all and the answer is that memory is not
    enabled.) *)
Theorem searchMemory_embedding_failure m query err :
  Embed (client m) query = inl err ->
  exists c calls,
    searchMemory m query = Some (c, m, calls) /\
    Forall (fun x => is_search x = false) calls /\
    (forall db, store m = Some db ->
       c = ErrorGeneratingEmbedding err /\ calls = [EmbedCall query]) /\
    (store m = None -> c = MemoryNotEnabled /\ calls = []).
Proof.
  intros Hembed. unfold searchMemory. rewrite Hembed.
  destruct (store m) as [db|].
  - exists (ErrorGeneratingEmbedding err), [EmbedCall query].
    split; [reflexivity|]. split; [repeat constructor|].
    split; [auto|discriminate].
  - exists MemoryNotEnabled, []. split; [reflexivity|]. split; [constructor|].
    split; [discriminate|auto].
Qed.

Lemma searchMemory_embedding_failure_witness :
  exists c calls,
    searchMemory model_down "hello" = Some (c, model_down, calls) /\
    Forall (fun x => is_search x = false) calls /\
    (forall db, store model_down = Some db ->
       c = ErrorGeneratingEmbedding "failed to generate embedding: connection refused" /\
       calls = [EmbedCall "hello"]) /\
    (store model_down = None -> c = MemoryNotEnabled /\ calls = []).
Proof.
  apply (searchMemory_embedding_failure model_down "hello"). reflexivity.
Defined.

(** C9.  A successful [SaveMessage] of a message whose conversation exists
    appends one row to [messages] and changes nothing else there.  The row
    has the id, the conversation id, the role, the content and the creation
    time of the message, and its embedding column is NULL when the embedding
    has length 0 and the encoding of the embedding otherwise.  In
    [conversations] every row keeps its place, id, title and creation time,
    the rows of the parent get [now] as update time and the other rows are
    as before; the parent is among them. *)
Theorem SaveMessage_frame db now msg db' :
  has_conversation db (m_ConversationID msg) = true ->
  SaveMessage db now msg = Some (None, db') ->
  (exists row,
     messages db' = messages db ++ [row] /\
     mr_id row = m_ID msg /\
     mr_conversation_id row = m_ConversationID msg /\
     mr_role row = m_Role msg /\
     mr_content row = m_Content msg /\
     mr_created_at row = m_CreatedAt msg /\
     (len (m_Embedding msg) = 0%nat -> mr_embedding row = None) /\
     (forall l, m_Embedding msg = Some l -> l <> [] ->
        mr_embedding row = Some (flat_map le_bytes l))) /\
  foreign_keys db' = foreign_keys db /\
  length (conversations db') = length (conversations db) /\
  (forall i r, conversations db !! i = Some r ->
     exists r', conversations db' !! i = Some r' /\
       cr_id r' = cr_id r /\ cr_title r' = cr_title r /\
       cr_created_at r' = cr_created_at r /\
       (cr_id r = m_ConversationID msg -> cr_updated_at r' = now) /\
       (cr_id r <> m_ConversationID msg -> r' = r)) /\
  (exists r, r ∈ conversations db' /\
     cr_id r = m_ConversationID msg /\ cr_updated_at r = now).
Proof.
  intros Hconv Hs.
  destruct (SaveMessage_inv _ _ _ _ _ Hs) as (blob & Hblob & [(e & _ & [=] & _)|(_ & _ & _ & ->)]).
  rewrite embedding_blob_spec in Hblob. injection Hblob as <-.
  cbn [messages conversations foreign_keys].
  split; [|split; [reflexivity|]; split; [apply length_fmap|]; split].
  - eexists. split; [reflexivity|].
    cbn [row_of_message mr_id mr_conversation_id mr_role mr_content mr_created_at
         mr_embedding].
    do 5 (split; [reflexivity|]). split.
    + intros Hlen. now rewrite decide_True.
    + intros l -> Hl. destruct l as [|x l]; [congruence|].
      now rewrite decide_False by discriminate.
  - intros i r Hr. exists (touch now (m_ConversationID msg) r).
    rewrite list_lookup_fmap, Hr. split; [reflexivity|].
    unfold touch. destruct (decide (cr_id r = m_ConversationID msg)); cbn; tauto.
  - unfold has_conversation in Hconv. apply bool_decide_eq_true in Hconv.
    apply list_elem_of_fmap in Hconv as (r & Hid & Hr).
    exists (touch now (m_ConversationID msg) r). split.
    + now apply list_elem_of_fmap_2.
    + unfold touch. rewrite decide_True by congruence. cbn. auto.
Qed.

Lemma SaveMessage_frame_witness :
  (exists row,
     messages (saved db_conv 20 msg_a) = messages db_conv ++ [row] /\
     mr_id row = m_ID msg_a /\
     mr_conversation_id row = m_ConversationID msg_a /\
     mr_role row = m_Role msg_a /\
     mr_content row = m_Content msg_a /\
     mr_created_at row = m_CreatedAt msg_a /\
     (len (m_Embedding msg_a) = 0%nat -> mr_embedding row = None) /\
     (forall l, m_Embedding msg_a = Some l -> l <> [] ->
        mr_embedding row = Some (flat_map le_bytes l))) /\
  foreign_keys (saved db_conv 20 msg_a) = foreign_keys db_conv /\
  length (conversations (saved db_conv 20 msg_a)) = length (conversations db_conv) /\
  (forall i r, conversations db_conv !! i = Some r ->
     exists r', conversations (saved db_conv 20 msg_a) !! i = Some r' /\
       cr_id r' = cr_id r /\ cr_title r' = cr_title r /\
       cr_created_at r' = cr_created_at r /\
       (cr_id r = m_ConversationID msg_a -> cr_updated_at r' = 20) /\
       (cr_id r <> m_ConversationID msg_a -> r' = r)) /\
  (exists r, r ∈ conversations (saved db_conv 20 msg_a) /\
     cr_id r = m_ConversationID msg_a /\ cr_updated_at r = 20).
Proof.
  apply (SaveMessage_frame db_conv 20 msg_a (saved db_conv 20 msg_a)); reflexivity.
Defined.

(** C10.  The messages of a conversation returned by [GetConversation], and
    so by [GetLastConversation], have the nil slice as [Embedding], whatever
    was saved. *)
Theorem GetConversation_no_embedding db id c :
  GetConversation db id = Some c \/ GetLastConversation db = Some c ->
  Forall (fun m => m_Embedding m = None /\ len (m_Embedding m) = 0%nat) (c_Messages c).
Proof.
  assert (Hget : forall id, GetConversation db id = Some c ->
            Forall (fun m => m_Embedding m = None /\ len (m_Embedding m) = 0%nat)
                   (c_Messages c)).
  { intros id' H. rewrite (GetConversation_messages _ _ _ H).
    apply Forall_fmap, Forall_forall. intros r _. split; reflexivity. }
  intros [H|H]; [now apply (Hget id)|].
  unfold GetLastConversation in H.
  destruct (recent_conversations db 1) as [|r rs]; [discriminate|].
  now apply (Hget (cr_id r)).
Qed.

(** The conversation of the example holds three messages that were saved
    with an embedding. *)
Lemma GetConversation_no_embedding_witness :
  GetConversation db_msgs "c1"
  = Some {| c_ID := "c1"; c_Title := "greetings"; c_CreatedAt := 1; c_UpdatedAt := 23;
            c_Messages := scan_message <$> messages db_msgs |} /\
  Forall (fun m => m_Embedding m = None /\ len (m_Embedding m) = 0%nat)
         (scan_message <$> messages db_msgs).
Proof.
  split; [reflexivity|].
  exact (GetConversation_no_embedding db_msgs "c1"
           {| c_ID := "c1"; c_Title := "greetings"; c_CreatedAt := 1; c_UpdatedAt := 23;
              c_Messages := scan_message <$> messages db_msgs |}
           (or_introl eq_refl)).
Defined.

End Claims.

(** * Further properties of the code *)

(** ** Creating and reading conversations *)

Section ConversationFacts.
Import Codec Float64 Similarity Store Props Ordering Examples ZoneExamples.

Lemma filter_id_absent db id :
  has_conversation db id = false ->
  filter (fun r => cr_id r = id) (conversations db) = [].
Proof.
  intros H. unfold has_conversation in H. apply bool_decide_eq_false in H.
  induction (conversations db) as [|r l IH]; [reflexivity|].
  rewrite filter_cons. rewrite fmap_cons, not_elem_of_cons in H. destruct H as [Hne H].
  rewrite decide_False by congruence. now apply IH.
Qed.

Lemma has_conversation_spec db id :
  has_conversation db id = true <-> exists r, r ∈ conversations db /\ cr_id r = id.
Proof.
  unfold has_conversation. rewrite bool_decide_eq_true, list_elem_of_fmap.
  split; intros (r & H1 & H2); exists r; auto.
Qed.

(** [CreateConversation] on an id that is taken fails with the violation of
    the primary key and changes nothing. *)
Theorem CreateConversation_duplicate db now id title :
  has_conversation db id = true ->
  CreateConversation db now id title = (inl UniqueViolation, db).
Proof.
  intros H. unfold CreateConversation, insert_conversation. cbn [cr_id]. now rewrite H.
Qed.

Lemma CreateConversation_duplicate_witness :
  CreateConversation db_conv 2 "c1" "again" = (inl UniqueViolation, db_conv).
Proof. apply (CreateConversation_duplicate db_conv 2 "c1" "again"). reflexivity. Defined.

(** [CreateConversation] on a free id appends one row with [now] as both
    times and touches nothing else; [GetConversation] then finds the
    conversation under this id, with those fields, and finds under every
    other id what it found before. *)
Theorem CreateConversation_then_get db now id title :
  has_conversation db id = false ->
  exists db',
    CreateConversation db now id title
    = (inr {| c_ID := id; c_Title := title; c_CreatedAt := now; c_UpdatedAt := now;
              c_Messages := [] |}, db') /\
    conversations db' = conversations db ++ [new_conversation_row now id title] /\
    messages db' = messages db /\
    foreign_keys db' = foreign_keys db /\
    GetConversation db' id
    = Some {| c_ID := id; c_Title := title; c_CreatedAt := now; c_UpdatedAt := now;
              c_Messages := scan_message <$> messages_of db id |} /\
    (forall id', id' <> id -> GetConversation db' id' = GetConversation db id').
Proof.
  intros H. eexists. split.
  { unfold CreateConversation, insert_conversation. cbn [cr_id]. rewrite H. reflexivity. }
  cbn [conversations messages foreign_keys]. fold (new_conversation_row now id title).
  split; [reflexivity|]. split; [reflexivity|]. split; [reflexivity|]. split.
  - unfold GetConversation. cbn [conversations].
    rewrite filter_app, (filter_id_absent db id H). cbn [app].
    rewrite filter_cons, decide_True by reflexivity. reflexivity.
  - intros id' Hne. unfold GetConversation. cbn [conversations].
    rewrite filter_app, filter_cons, decide_False by (cbn; congruence).
    rewrite filter_nil, app_nil_r. reflexivity.
Qed.

Lemma CreateConversation_then_get_witness :
  exists db',
    CreateConversation db_msgs 30 "c2" "second"
    = (inr {| c_ID := "c2"; c_Title := "second"; c_CreatedAt := 30; c_UpdatedAt := 30;
              c_Messages := [] |}, db') /\
    conversations db' = conversations db_msgs ++ [new_conversation_row 30 "c2" "second"] /\
    messages db' = messages db_msgs /\
    foreign_keys db' = foreign_keys db_msgs /\
    GetConversation db' "c2"
    = Some {| c_ID := "c2"; c_Title := "second"; c_CreatedAt := 30; c_UpdatedAt := 30;
              c_Messages := scan_message <$> messages_of db_msgs "c2" |} /\
    (forall id', id' <> "c2" -> GetConversation db' id' = GetConversation db_msgs id').
Proof. apply (CreateConversation_then_get db_msgs 30 "c2" "second"). reflexivity. Defined.

(** [GetConversation] returns no conversation exactly for the ids that are
    not in the table. *)
Theorem GetConversation_absent db id :
  GetConversation db id = None <-> has_conversation db id = false.
Proof.
  split.
  - intros Hnone. destruct (has_conversation db id) eqn:Hc; [|reflexivity].
    apply has_conversation_spec in Hc as (r & Hr & <-).
    destruct (GetConversation_is_Some db r Hr) as [c Hc]. congruence.
  - intros H. unfold GetConversation. now rewrite (filter_id_absent db id H).
Qed.

(** *** [ORDER BY] sorts *)

Section OrderBy.
Context {A : Type} (le : A -> A -> bool) (R : A -> A -> Prop).
Hypothesis le_true : forall x y, le x y = true -> R x y.
Hypothesis le_false : forall x y, le x y = false -> R y x.
Hypothesis R_trans : forall x y z, R x y -> R y z -> R x z.

Lemma insert_sorted_StronglySorted x l :
  StronglySorted R l -> StronglySorted R (insert_sorted le x l).
Proof.
  induction l as [|y l IH]; intros Hs; cbn [insert_sorted].
  - repeat constructor.
  - apply StronglySorted_cons in Hs as [Hy Hs].
    destruct (le x y) eqn:Hxy.
    + apply StronglySorted_cons. split; [|apply StronglySorted_cons; auto].
      constructor; [auto|]. rewrite Forall_forall in Hy |- *. eauto.
    + apply StronglySorted_cons. split; [|auto].
      rewrite insert_sorted_Permutation. constructor; auto.
Qed.

Lemma order_by_StronglySorted l : StronglySorted R (order_by le l).
Proof.
  unfold order_by. induction l as [|x l IH]; cbn [foldr]; [constructor|].
  now apply insert_sorted_StronglySorted.
Qed.

(** A row that may come after all the sorted ones is put last. *)
Lemma order_by_snoc l x :
  Forall (fun y => le y x = true) l -> order_by le (l ++ [x]) = order_by le l ++ [x].
Proof.
  unfold order_by. rewrite foldr_app. cbn [foldr insert_sorted].
  induction 1 as [|y l Hy Hl IH]; [reflexivity|].
  cbn [foldr]. rewrite IH. clear IH.
  assert (Hall : Forall (fun y => le y x = true) (foldr (insert_sorted le) [] l)).
  { fold (order_by le l). rewrite order_by_Permutation. exact Hl. }
  induction (foldr (insert_sorted le) [] l) as [|z k IHk]; cbn [app insert_sorted].
  - now rewrite Hy.
  - destruct (le y z); [reflexivity|].
    apply Forall_cons in Hall as [_ Hall]. now rewrite IHk.
Qed.

End OrderBy.

Lemma StronglySorted_fmap_impl {A B} (R : A -> A -> Prop) (R' : B -> B -> Prop)
    (f : A -> B) l :
  (forall x y, R x y -> R' (f x) (f y)) ->
  StronglySorted R l -> StronglySorted R' (f <$> l).
Proof.
  intros Hf. induction 1 as [|x l Hs IH Hx]; cbn; constructor; [assumption|].
  apply Forall_fmap. eapply Forall_impl; [exact Hx|]. intros y. apply Hf.
Qed.

Lemma StronglySorted_take {A} (R : A -> A -> Prop) n l :
  StronglySorted R l -> StronglySorted R (take n l).
Proof.
  intros Hs. rewrite <- (take_drop n l) in Hs. now apply StronglySorted_app_1_l in Hs.
Qed.

Lemma StronglySorted_impl_elem {A} (R R' : A -> A -> Prop) l :
  (forall x y, x ∈ l -> y ∈ l -> R x y -> R' x y) ->
  StronglySorted R l -> StronglySorted R' l.
Proof.
  intros Himp Hs. induction Hs as [|x l Hs IH Hx]; constructor.
  - apply IH. intros y z Hy Hz. apply Himp; now right.
  - rewrite Forall_forall in Hx |- *. intros y Hy.
    apply Himp; [left|now right|now apply Hx].
Qed.

(** *** The order of the stored text *)

Lemma text_le_total a b : text_le a b = false -> text_le b a = true.
Proof.
  destruct a as [wa za], b as [wb zb]. unfold text_le, offset_le. cbn [wall zone].
  destruct (Z.ltb_spec wa wb), (Z.ltb_spec wb wa), (Z.eqb_spec wa wb), (Z.eqb_spec wb wa),
    (Z.leb_spec 0 za), (Z.leb_spec 0 zb), (Z.leb_spec za zb), (Z.leb_spec zb za);
    cbn; intros; try reflexivity; try discriminate; lia.
Qed.

Lemma text_le_trans a b c : text_le a b = true -> text_le b c = true -> text_le a c = true.
Proof.
  destruct a as [wa za], b as [wb zb], c as [wc zc].
  unfold text_le, offset_le. cbn [wall zone].
  destruct (Z.ltb_spec wa wb), (Z.ltb_spec wb wc), (Z.ltb_spec wa wc),
    (Z.eqb_spec wa wb), (Z.eqb_spec wb wc), (Z.eqb_spec wa wc),
    (Z.leb_spec 0 za), (Z.leb_spec 0 zb), (Z.leb_spec 0 zc),
    (Z.leb_spec za zb), (Z.leb_spec zb za), (Z.leb_spec zb zc), (Z.leb_spec zc zb),
    (Z.leb_spec za zc), (Z.leb_spec zc za);
    cbn; intros; try reflexivity; try discriminate; lia.
Qed.

(** Between times written in one zone the order of the text is the order
    of the instants. *)
Lemma text_le_one_zone a b :
  zone a = zone b -> (text_le a b = true <-> instant a <= instant b).
Proof.
  destruct a as [wa za], b as [wb zb]. unfold text_le, offset_le, instant. cbn [wall zone].
  intros <-.
  destruct (Z.ltb_spec wa wb), (Z.eqb_spec wa wb), (Z.leb_spec 0 za), (Z.leb_spec za za);
    cbn; split; intros; try reflexivity; try discriminate; lia.
Qed.

Lemma messages_of_sorted db id :
  StronglySorted (fun x y => text_before (mr_created_at x) (mr_created_at y))
    (messages_of db id).
Proof.
  unfold messages_of.
  apply (order_by_StronglySorted _
           (fun x y => text_before (mr_created_at x) (mr_created_at y))).
  - intros x y H. exact H.
  - intros x y H. now apply text_le_total.
  - intros x y z. apply text_le_trans.
Qed.

Lemma recent_sorted db :
  StronglySorted (fun x y => text_before (cr_updated_at y) (cr_updated_at x))
    (order_by (fun x y => text_le (cr_updated_at y) (cr_updated_at x)) (conversations db)).
Proof.
  apply (order_by_StronglySorted _
           (fun x y => text_before (cr_updated_at y) (cr_updated_at x))).
  - intros x y H. exact H.
  - intros x y H. now apply text_le_total.
  - intros x y z H1 H2. exact (text_le_trans _ _ _ H2 H1).
Qed.

(** The messages that [GetConversation] returns are those stored for the
    conversation, each once, in the order of the text of their creation
    times: by the date and time these show, whatever their zones.  That is
    the order of the instants when all of them were written in one zone. *)
Theorem GetConversation_messages_ordered db id c :
  GetConversation db id = Some c ->
  by_created_at (c_Messages c) /\
  (one_zone (m_CreatedAt <$> c_Messages c) -> chronological (c_Messages c)) /\
  c_Messages c
    ≡ₚ scan_message <$> filter (fun r => mr_conversation_id r = id) (messages db) /\
  Forall (fun m => m_ConversationID m = id) (c_Messages c).
Proof.
  intros H. rewrite (GetConversation_messages _ _ _ H).
  assert (Hs : by_created_at (scan_message <$> messages_of db id)).
  { apply (StronglySorted_fmap_impl
             (fun x y => text_before (mr_created_at x) (mr_created_at y))).
    - intros x y Hxy. exact Hxy.
    - apply messages_of_sorted. }
  split; [exact Hs|]. split; [|split].
  - intros Hz. revert Hs. apply StronglySorted_impl_elem. intros x y Hx Hy Hxy.
    apply text_le_one_zone; [|exact Hxy].
    apply Hz; now apply list_elem_of_fmap_2.
  - unfold messages_of. now rewrite order_by_Permutation.
  - apply Forall_fmap, Forall_forall. intros r Hr. cbn.
    unfold messages_of in Hr. rewrite order_by_Permutation in Hr.
    now apply list_elem_of_filter in Hr as [Hid _].
Qed.

Lemma GetConversation_messages_ordered_witness :
  by_created_at (scan_message <$> messages db_msgs) /\
  (one_zone (m_CreatedAt <$> (scan_message <$> messages db_msgs)) ->
   chronological (scan_message <$> messages db_msgs)) /\
  scan_message <$> messages db_msgs
    ≡ₚ scan_message <$> filter (fun r => mr_conversation_id r = "c1") (messages db_msgs) /\
  Forall (fun m => m_ConversationID m = "c1") (scan_message <$> messages db_msgs).
Proof.
  exact (GetConversation_messages_ordered db_msgs "c1"
           {| c_ID := "c1"; c_Title := "greetings"; c_CreatedAt := 1; c_UpdatedAt := 23;
              c_Messages := scan_message <$> messages db_msgs |} eq_refl).
Defined.

(** [ListConversations] returns the first [limit] of the conversations
    sorted in the reverse order of the text of their update times, all of
    them for a negative limit, as summaries without messages.  When all
    update times were written in one zone the newest comes first. *)
Theorem ListConversations_ordered db limit :
  exists all,
    all ≡ₚ scan_conversation <$> conversations db /\
    by_updated_at_desc all /\
    ListConversations db limit
    = (if limit <? 0 then all else take (Z.to_nat limit) all) /\
    by_updated_at_desc (ListConversations db limit) /\
    (one_zone (cr_updated_at <$> conversations db) ->
     newest_first all /\ newest_first (ListConversations db limit)) /\
    Forall (fun c => c_Messages c = []) (ListConversations db limit) /\
    (0 <= limit ->
     length (ListConversations db limit)
     = Nat.min (Z.to_nat limit) (length (conversations db))).
Proof.
  set (sorted := order_by (fun x y => text_le (cr_updated_at y) (cr_updated_at x))
                   (conversations db)).
  assert (Hperm : sorted ≡ₚ conversations db) by apply order_by_Permutation.
  assert (Hsorted : by_updated_at_desc (scan_conversation <$> sorted)).
  { apply (StronglySorted_fmap_impl
             (fun x y => text_before (cr_updated_at y) (cr_updated_at x))).
    - intros x y Hxy. exact Hxy.
    - apply recent_sorted. }
  assert (Heq : ListConversations db limit
                = if limit <? 0 then scan_conversation <$> sorted
                  else take (Z.to_nat limit) (scan_conversation <$> sorted)).
  { unfold ListConversations, recent_conversations, sql_limit. fold sorted.
    destruct (limit <? 0); [reflexivity|]. now rewrite fmap_take. }
  exists (scan_conversation <$> sorted).
  split; [|split; [|split; [|split; [|split; [|split]]]]].
  - now rewrite Hperm.
  - exact Hsorted.
  - exact Heq.
  - rewrite Heq. destruct (limit <? 0); [assumption|]. now apply StronglySorted_take.
  - intros Hz.
    assert (Hnew : newest_first (scan_conversation <$> sorted)).
    { revert Hsorted. apply StronglySorted_impl_elem. intros x y Hx Hy Hxy.
      apply text_le_one_zone; [|exact Hxy].
      apply list_elem_of_fmap in Hx as (rx & -> & Hx).
      apply list_elem_of_fmap in Hy as (ry & -> & Hy).
      rewrite Hperm in Hx, Hy.
      apply Hz; now apply (list_elem_of_fmap_2 cr_updated_at). }
    split; [exact Hnew|].
    rewrite Heq. destruct (limit <? 0); [assumption|]. now apply StronglySorted_take.
  - unfold ListConversations. apply Forall_fmap, Forall_forall. intros r _. reflexivity.
  - intros Hl. rewrite Heq. destruct (Z.ltb_spec limit 0); [lia|].
    rewrite length_take, length_fmap. now rewrite (Permutation_length Hperm).
Qed.

(** *** What the operations keep *)

Lemma touch_id now id r : cr_id (touch now id r) = cr_id r.
Proof. unfold touch. now destruct (decide _). Qed.

Lemma touch_ids now id (l : list conversation_row) :
  cr_id <$> (touch now id <$> l) = cr_id <$> l.
Proof.
  rewrite <- list_fmap_compose. apply list_fmap_ext. intros i r _. apply touch_id.
Qed.

Lemma CreateConversation_inv db now id title r db' :
  CreateConversation db now id title = (r, db') ->
  db' = db \/
  (has_conversation db id = false /\
   db' = {| foreign_keys := foreign_keys db;
            conversations := conversations db ++ [new_conversation_row now id title];
            messages := messages db |}).
Proof.
  unfold CreateConversation, insert_conversation. cbn [cr_id].
  destruct (has_conversation db id) eqn:Hc; intros [= <- <-]; auto.
Qed.

Lemma reachable_conversation_ids db :
  reachable db -> NoDup (cr_id <$> conversations db).
Proof.
  intros Hr.
  induction Hr as [fk|db now id title r db' _ IH Hc|db now msg r db' _ IH Hs].
  - constructor.
  - destruct (CreateConversation_inv _ _ _ _ _ _ Hc) as [->|[Hfree ->]]; [assumption|].
    cbn [conversations]. rewrite fmap_app. apply NoDup_app. split; [assumption|]. split.
    + intros x Hx Hx'. apply list_elem_of_singleton in Hx'. subst x.
      unfold has_conversation in Hfree. apply bool_decide_eq_false in Hfree. contradiction.
    + apply NoDup_singleton.
  - destruct (SaveMessage_inv _ _ _ _ _ Hs) as (blob & _ & [(e & _ & _ & ->)|(_ & _ & _ & ->)]);
      [assumption|].
    cbn [conversations]. now rewrite touch_ids.
Qed.

(** In a database built by the operations no two conversations share an id
    and no two messages share an id. *)
Theorem reachable_ids_unique db :
  reachable db ->
  NoDup (cr_id <$> conversations db) /\ NoDup (mr_id <$> messages db).
Proof.
  intros Hr. split; [now apply reachable_conversation_ids|].
  apply (reachable_well_stored db Hr).
Qed.

Lemma reachable_ids_unique_witness :
  NoDup (cr_id <$> conversations db_msgs) /\ NoDup (mr_id <$> messages db_msgs).
Proof. apply (reachable_ids_unique db_msgs). exact reachable_db_msgs. Defined.

(** On a connection that checks foreign keys, every stored message belongs
    to a stored conversation. *)
Theorem reachable_referential_integrity db :
  reachable db -> foreign_keys db = true ->
  Forall (fun row => has_conversation db (mr_conversation_id row) = true) (messages db).
Proof.
  induction 1 as [fk|db now id title r db' _ IH Hc|db now msg r db' _ IH Hs]; intros Hfk.
  - constructor.
  - destruct (CreateConversation_inv _ _ _ _ _ _ Hc) as [->|[Hfree ->]]; [auto|].
    cbn [foreign_keys messages] in *. specialize (IH Hfk).
    eapply Forall_impl; [exact IH|]. intros row Hrow. cbn beta in *.
    apply has_conversation_spec in Hrow as (r0 & Hr0 & Hid).
    apply has_conversation_spec. exists r0. cbn [conversations].
    split; [apply elem_of_app; now left|assumption].
  - destruct (SaveMessage_inv _ _ _ _ _ Hs) as (blob & _ & [(e & _ & _ & ->)|(_ & Hconv & _ & ->)]);
      [auto|].
    cbn [foreign_keys messages] in *. specialize (IH Hfk). specialize (Hconv Hfk).
    assert (Hsame : forall x,
              has_conversation
                {| foreign_keys := foreign_keys db;
                   conversations := touch now (m_ConversationID msg) <$> conversations db;
                   messages := messages db ++ [row_of_message msg blob] |} x
              = has_conversation db x).
    { intros x. unfold has_conversation. cbn [conversations]. now rewrite touch_ids. }
    apply Forall_app. split.
    + eapply Forall_impl; [exact IH|]. intros row Hrow. cbn beta. now rewrite Hsame.
    + constructor; [|constructor]. now rewrite Hsame.
Qed.

Lemma reachable_strict_msgs : reachable StrictExamples.strict_msgs.
Proof.
  unfold StrictExamples.strict_msgs. repeat apply reachable_saved.
  apply reachable_created. apply (reachable_new true).
Qed.

(** The orphan message was refused, so one message is stored. *)
Lemma reachable_referential_integrity_witness :
  length (messages StrictExamples.strict_msgs) = 1%nat /\
  Forall (fun row => has_conversation StrictExamples.strict_msgs (mr_conversation_id row) = true)
         (messages StrictExamples.strict_msgs).
Proof.
  split; [reflexivity|].
  apply (reachable_referential_integrity StrictExamples.strict_msgs);
    [exact reachable_strict_msgs|reflexivity].
Defined.

(** [SaveMessage] never panics.  It fails, and then changes nothing, when
    the id of the message is taken, and, on a connection that checks
    foreign keys, when the conversation does not exist; otherwise it
    succeeds. *)
Theorem SaveMessage_outcome db now msg :
  exists r db',
    SaveMessage db now msg = Some (r, db') /\
    (has_message db (m_ID msg) = true -> r = Some UniqueViolation /\ db' = db) /\
    (has_message db (m_ID msg) = false -> foreign_keys db = true ->
     has_conversation db (m_ConversationID msg) = false ->
     r = Some ForeignKeyViolation /\ db' = db) /\
    (r <> None -> db' = db) /\
    (r = None <->
     has_message db (m_ID msg) = false /\
     (foreign_keys db = true -> has_conversation db (m_ConversationID msg) = true)).
Proof.
  unfold SaveMessage. rewrite embedding_blob_spec. cbn [mbind option_bind].
  unfold insert_message. cbn [row_of_message mr_id mr_conversation_id].
  destruct (has_message db (m_ID msg)) eqn:Hm.
  { do 2 eexists. split; [reflexivity|]. repeat split; try discriminate; auto.
    intros [? _]. discriminate. }
  destruct (foreign_keys db) eqn:Hfk; cbn [andb].
  - destruct (has_conversation db (m_ConversationID msg)) eqn:Hc; cbn [negb].
    + do 2 eexists. split; [reflexivity|]. repeat split; try discriminate; auto.
      intros; congruence.
    + do 2 eexists. split; [reflexivity|]. repeat split; try discriminate; auto.
      intros [_ H]. specialize (H eq_refl). discriminate.
  - do 2 eexists. split; [reflexivity|]. repeat split; try discriminate; auto.
    intros; congruence.
Qed.

(** [GetMessageCount] goes up by one with a successful [SaveMessage], and
    stays as it is with a failed one and with [CreateConversation]. *)
Theorem GetMessageCount_counts_saves db now msg r db' :
  SaveMessage db now msg = Some (r, db') ->
  GetMessageCount db' = GetMessageCount db + match r with Some _ => 0 | None => 1 end /\
  (forall id title, GetMessageCount (snd (CreateConversation db now id title))
                    = GetMessageCount db).
Proof.
  intros Hs. split.
  - destruct (SaveMessage_inv _ _ _ _ _ Hs) as (blob & _ & [(e & _ & -> & ->)|(_ & _ & -> & ->)]).
    + lia.
    + unfold GetMessageCount. cbn [messages]. rewrite length_app. cbn [length]. lia.
  - intros id title. unfold GetMessageCount.
    destruct (CreateConversation db now id title) as [r0 db0] eqn:Hc.
    cbn [snd]. now rewrite (CreateConversation_messages _ _ _ _ _ _ Hc).
Qed.

Lemma GetMessageCount_counts_saves_witness :
  GetMessageCount (saved db_msgs 40 msg_orphan) = GetMessageCount db_msgs + 1 /\
  (forall id title, GetMessageCount (snd (CreateConversation db_msgs 40 id title))
                    = GetMessageCount db_msgs).
Proof.
  exact (GetMessageCount_counts_saves db_msgs 40 msg_orphan None
           (saved db_msgs 40 msg_orphan) eq_refl).
Defined.

(** *** The last conversation *)

Lemma recent_head db r rest :
  recent_conversations db 1 = r :: rest ->
  r ∈ conversations db /\
  forall r', r' ∈ conversations db -> text_before (cr_updated_at r') (cr_updated_at r).
Proof.
  intros Hrec. split.
  { apply (elem_of_recent_conversations db 1). rewrite Hrec. left. }
  intros r' Hr'. unfold recent_conversations, sql_limit in Hrec. cbn in Hrec.
  pose proof (recent_sorted db) as Hs.
  rewrite <- (order_by_Permutation
                (fun x y => text_le (cr_updated_at y) (cr_updated_at x))) in Hr'.
  destruct (order_by _ (conversations db)) as [|r0 tail]; [discriminate|].
  cbn in Hrec. injection Hrec as -> _.
  apply StronglySorted_cons in Hs as [Hall _].
  apply elem_of_cons in Hr' as [->|Hr'].
  - apply text_le_one_zone; [reflexivity|lia].
  - rewrite Forall_forall in Hall. now apply Hall.
Qed.

Lemma recent_nil db : recent_conversations db 1 = [] <-> conversations db = [].
Proof.
  unfold recent_conversations, sql_limit.
  pose proof (order_by_Permutation
                (fun x y => text_le (cr_updated_at y) (cr_updated_at x))
                (conversations db)) as Hp.
  set (sorted := order_by _ (conversations db)) in *.
  change (1 <? 0) with false. change (Z.to_nat 1) with 1%nat. cbn iota.
  split; intros H.
  - destruct sorted; [|discriminate H]. now apply Permutation.Permutation_nil in Hp.
  - rewrite H in Hp. symmetry in Hp. apply Permutation.Permutation_nil in Hp.
    now rewrite Hp.
Qed.

(** With unique ids, the conversation found under the id of a row is built
    from that row. *)
Lemma GetConversation_row db r :
  NoDup (cr_id <$> conversations db) -> r ∈ conversations db ->
  GetConversation db (cr_id r)
  = Some {| c_ID := cr_id r; c_Title := cr_title r; c_CreatedAt := cr_created_at r;
            c_UpdatedAt := cr_updated_at r;
            c_Messages := scan_message <$> messages_of db (cr_id r) |}.
Proof.
  intros Hnd Hr. unfold GetConversation.
  destruct (filter _ (conversations db)) as [|r1 rs] eqn:Hf.
  - exfalso. now apply (filter_nil_not_elem_of _ _ r Hf).
  - assert (Hr1 : r1 ∈ filter (fun x => cr_id x = cr_id r) (conversations db))
      by (rewrite Hf; left).
    apply list_elem_of_filter in Hr1 as [Hid Hr1].
    assert (r1 = r) by (apply (NoDup_fmap_eq cr_id (conversations db)); assumption).
    now subst r1.
Qed.

(** [GetLastConversation] finds nothing exactly in a store without
    conversations; otherwise it returns a stored conversation, with its
    messages, whose update time no other conversation follows in the order
    of the stored text.  When all update times were written in one zone, no
    conversation was updated at a later instant. *)
Theorem GetLastConversation_last_in_text_order db :
  reachable db ->
  (GetLastConversation db = None <-> conversations db = []) /\
  (forall c, GetLastConversation db = Some c ->
     (exists r, r ∈ conversations db /\
        c = {| c_ID := cr_id r; c_Title := cr_title r; c_CreatedAt := cr_created_at r;
               c_UpdatedAt := cr_updated_at r;
               c_Messages := scan_message <$> messages_of db (cr_id r) |}) /\
     (forall r', r' ∈ conversations db ->
        text_before (cr_updated_at r') (c_UpdatedAt c)) /\
     (one_zone (cr_updated_at <$> conversations db) ->
      forall r', r' ∈ conversations db ->
        instant (cr_updated_at r') <= instant (c_UpdatedAt c))).
Proof.
  intros Hr. destruct (reachable_ids_unique db Hr) as [Hnd _].
  unfold GetLastConversation.
  destruct (recent_conversations db 1) as [|r rest] eqn:Hrec.
  - split; [|discriminate]. split; [intros _; now apply recent_nil|reflexivity].
  - destruct (recent_head db r rest Hrec) as [Hin Hmax].
    rewrite (GetConversation_row db r Hnd Hin). split.
    + split; [discriminate|]. intros Hnil. rewrite Hnil in Hin. inversion Hin.
    + intros c [= <-]. split; [eauto|]. split; [exact Hmax|].
      intros Hz r' Hr'. cbn [c_UpdatedAt].
      apply text_le_one_zone; [|now apply Hmax].
      apply Hz; now apply (list_elem_of_fmap_2 cr_updated_at).
Qed.

Lemma GetLastConversation_last_in_text_order_witness :
  (GetLastConversation db_msgs = None <-> conversations db_msgs = []) /\
  (forall c, GetLastConversation db_msgs = Some c ->
     (exists r, r ∈ conversations db_msgs /\
        c = {| c_ID := cr_id r; c_Title := cr_title r; c_CreatedAt := cr_created_at r;
               c_UpdatedAt := cr_updated_at r;
               c_Messages := scan_message <$> messages_of db_msgs (cr_id r) |}) /\
     (forall r', r' ∈ conversations db_msgs ->
        text_before (cr_updated_at r') (c_UpdatedAt c)) /\
     (one_zone (cr_updated_at <$> conversations db_msgs) ->
      forall r', r' ∈ conversations db_msgs ->
        instant (cr_updated_at r') <= instant (c_UpdatedAt c))).
Proof. apply (GetLastConversation_last_in_text_order db_msgs). exact reachable_db_msgs. Defined.

(** *** Saving, then reading *)

Lemma filter_touch now id id' (l : list conversation_row) :
  filter (fun r => cr_id r = id') (touch now id <$> l)
  = touch now id <$> filter (fun r => cr_id r = id') l.
Proof.
  induction l as [|r l IH]; [reflexivity|].
  rewrite fmap_cons, !filter_cons, touch_id.
  destruct (decide (cr_id r = id')); [rewrite fmap_cons|]; now rewrite IH.
Qed.

(** After a successful [SaveMessage] of a message whose creation time comes,
    in the order of the stored text, after those of the messages stored for
    its conversation, [GetConversation] returns the conversation with the
    update time [now], its other fields as before, and its former messages
    followed by the new one, whose [Embedding] is the nil slice. *)
Theorem SaveMessage_then_get db now msg db' c :
  GetConversation db (m_ConversationID msg) = Some c ->
  SaveMessage db now msg = Some (None, db') ->
  Forall (fun m => text_strictly_before (m_CreatedAt m) (m_CreatedAt msg)) (c_Messages c) ->
  GetConversation db' (m_ConversationID msg)
  = Some {| c_ID := c_ID c; c_Title := c_Title c; c_CreatedAt := c_CreatedAt c;
            c_UpdatedAt := now;
            c_Messages :=
              c_Messages c
              ++ [{| m_ID := m_ID msg; m_ConversationID := m_ConversationID msg;
                     m_Role := m_Role msg; m_Content := m_Content msg;
                     m_Embedding := None; m_CreatedAt := m_CreatedAt msg |}] |}.
Proof.
  intros Hget Hs Hold.
  destruct (SaveMessage_inv _ _ _ _ _ Hs) as (blob & _ & [(e & _ & [=] & _)|(_ & _ & _ & ->)]).
  rewrite (GetConversation_messages _ _ _ Hget) in Hold |- *.
  unfold GetConversation in *. cbn [conversations].
  rewrite filter_touch.
  destruct (filter _ (conversations db)) as [|r rs] eqn:Hf; [discriminate|].
  assert (Hid : cr_id r = m_ConversationID msg).
  { assert (Hr : r ∈ filter (fun x => cr_id x = m_ConversationID msg) (conversations db))
      by (rewrite Hf; left).
    now apply list_elem_of_filter in Hr as [? _]. }
  injection Hget as <-. cbn [c_ID c_Title c_CreatedAt c_UpdatedAt c_Messages fmap list_fmap].
  unfold touch. rewrite decide_True by assumption.
  cbn [cr_id cr_title cr_created_at cr_updated_at].
  do 2 f_equal. unfold messages_of at 1. cbn [messages].
  rewrite filter_app, filter_cons, decide_True by reflexivity.
  rewrite filter_nil.
  fold (messages_of db (m_ConversationID msg)).
  rewrite (order_by_snoc (fun x y => text_le (mr_created_at x) (mr_created_at y))).
  - fold (messages_of db (m_ConversationID msg)). rewrite fmap_app. reflexivity.
  - apply Forall_forall. intros row Hrow.
    rewrite Forall_forall in Hold.
    specialize (Hold (scan_message row)). cbn in Hold.
    apply text_le_total, Hold, list_elem_of_fmap_2.
    unfold messages_of. now rewrite order_by_Permutation.
Qed.

Lemma SaveMessage_then_get_witness :
  GetConversation (saved db_msgs 40 (mk_message "n" "c1" "assistant" "bye" None 15)) "c1"
  = Some {| c_ID := "c1"; c_Title := "greetings"; c_CreatedAt := 1; c_UpdatedAt := 40;
            c_Messages :=
              (scan_message <$> messages db_msgs)
              ++ [mk_message "n" "c1" "assistant" "bye" None 15] |}.
Proof.
  refine (SaveMessage_then_get db_msgs 40 (mk_message "n" "c1" "assistant" "bye" None 15)
            (saved db_msgs 40 (mk_message "n" "c1" "assistant" "bye" None 15))
            {| c_ID := "c1"; c_Title := "greetings"; c_CreatedAt := 1; c_UpdatedAt := 23;
               c_Messages := scan_message <$> messages db_msgs |} eq_refl eq_refl _).
  repeat constructor.
Defined.

(** *** A change of zone

    The stored text is ordered by the date and time it shows, so that times
    written on either side of a change of zone need not come in the order
    of their instants. *)

(** A message that is created and saved after another of its conversation,
    when the clocks have gone back, is returned before it by
    [GetConversation]: the messages are not in chronological order. *)
Theorem GetConversation_after_zone_change :
  instant (m_CreatedAt msg_q) < instant (m_CreatedAt msg_r) /\
  mr_id <$> messages db_zones = ["q"; "r"] /\
  exists c,
    GetConversation db_zones "c1" = Some c /\
    m_ID <$> c_Messages c = ["r"; "q"] /\
    by_created_at (c_Messages c) /\
    ~ chronological (c_Messages c).
Proof.
  split; [reflexivity|]. split; [reflexivity|].
  eexists. split; [reflexivity|]. split; [reflexivity|]. split.
  - repeat constructor.
  - intros Hc. apply StronglySorted_cons in Hc as [Hall _].
    apply Forall_cons in Hall as [Hlt _]. vm_compute in Hlt. now apply Hlt.
Qed.

(** A conversation that is created after another, when the clocks have gone
    back, is not the one that [GetLastConversation] and [ListConversations]
    give first. *)
Theorem GetLastConversation_after_zone_change :
  (exists older newer,
     conversations db_two = [older; newer] /\
     cr_id older = "s1" /\ cr_id newer = "s2" /\
     instant (cr_updated_at older) < instant (cr_updated_at newer)) /\
  c_ID <$> GetLastConversation db_two = Some "s1" /\
  c_ID <$> ListConversations db_two 1 = ["s1"] /\
  c_ID <$> ListConversations db_two 2 = ["s1"; "s2"].
Proof.
  split; [|repeat split].
  do 2 eexists. split; [reflexivity|]. repeat split.
Qed.

End ConversationFacts.

(** ** Searching *)

Section SearchFacts.
Import Codec Float64 Similarity Store Props Ordering Examples.




(** A message saved with an embedding is found again by [Search], with the
    embedding it was saved with, bit for bit, and scored against it, when
    the limit does not cut the results. *)
Theorem SaveMessage_then_Search db now msg e db' q k :
  reachable db ->
  m_Embedding msg = Some e -> e <> [] -> Forall is_float32 e ->
  SaveMessage db now msg = Some (None, db') ->
  Z.of_nat (embedded_count db') <= k ->
  exists results,
    Search db' q k = Some results /\
    {| sr_Message := msg; sr_Similarity := cosineSimilarity q e |} ∈ results.
Proof.
  intros Hreach He Hne Hwf Hs Hk.
  assert (Hreach' : reachable db') by (eapply reachable_save; eauto).
  destruct (Search_spec db' q k (reachable_well_stored db' Hreach') ltac:(lia))
    as (rs & _ & Hall & HS).
  eexists. split; [exact HS|].
  rewrite take_ge.
  2:{ rewrite length_exchange_sort, <- (Forall2_length _ _ _ Hall).
      unfold embedded_count in Hk. lia. }
  rewrite exchange_sort_Permutation.
  destruct (SaveMessage_inv _ _ _ _ _ Hs) as (blob & Hblob & [(e0 & _ & [=] & _)|(_ & _ & _ & Hdb)]).
  rewrite embedding_blob_spec, He in Hblob. cbn [len default] in Hblob.
  rewrite decide_False in Hblob by (destruct e; [congruence|discriminate]).
  injection Hblob as <-.
  assert (Hrow : row_of_message msg (Some (flat_map le_bytes e)) ∈ embedded_rows db').
  { unfold embedded_rows. apply list_elem_of_filter. split; [cbn; eauto|].
    rewrite Hdb. cbn [messages]. apply elem_of_app. right. left. }
  apply list_elem_of_lookup in Hrow as [i Hi].
  destruct (Forall2_lookup_l _ _ _ _ _ Hall Hi) as (r & Hr & (blob & e' & Hb & Hde & ->)).
  cbn [row_of_message mr_embedding] in Hb. injection Hb as <-.
  rewrite (deserializeFloat32_spec e Hwf) in Hde. injection Hde as <-.
  apply list_elem_of_lookup_2 in Hr.
  replace {| sr_Message := msg; sr_Similarity := cosineSimilarity q e |}
    with (scan_result q (row_of_message msg (Some (flat_map le_bytes e))) e); [assumption|].
  unfold scan_result. cbn [row_of_message mr_id mr_conversation_id mr_role mr_content mr_created_at].
  destruct msg; cbn in *. now subst.
Qed.

Lemma SaveMessage_then_Search_witness :
  exists results,
    Search (saved db_conv 20 msg_a) [one32; 0] 5 = Some results /\
    {| sr_Message := msg_a; sr_Similarity := cosineSimilarity [one32; 0] [0; one32] |}
      ∈ results.
Proof.
  apply (SaveMessage_then_Search db_conv 20 msg_a [0; one32] (saved db_conv 20 msg_a)
           [one32; 0] 5).
  - unfold db_conv. apply reachable_created. apply (reachable_new false).
  - reflexivity.
  - discriminate.
  - repeat constructor; unfold is_float32, one32; lia.
  - reflexivity.
  - vm_compute. discriminate.
Defined.

End SearchFacts.

(** ** The codec on arbitrary bytes *)

Section CodecBytes.
Import Codec.

Lemma lor_shiftl_add a b n :
  0 <= n -> 0 <= a < 2 ^ n -> Z.lor a (Z.shiftl b n) = a + b * 2 ^ n.
Proof.
  intros Hn Ha. rewrite <- Z.shiftl_mul_pow2 by assumption.
  assert (Hland : Z.land a (Z.shiftl b n) = 0).
  { apply Z.bits_inj'. intros i Hi. rewrite Z.land_spec, Z.bits_0.
    destruct (Z_lt_dec i n).
    - rewrite Z.shiftl_spec_low by assumption. apply andb_false_r.
    - destruct (Z.eq_dec a 0) as [->|Hnz]; [now rewrite Z.bits_0|].
      rewrite (Z.bits_above_log2 a i); [reflexivity|lia|].
      assert (Z.log2 a < n) by (apply Z.log2_lt_pow2; lia). lia. }
  rewrite Z.add_nocarry_lxor by assumption. symmetry. now apply Z.lxor_lor.
Qed.

(** Four bytes read as a little-endian number and written back. *)
Lemma le_bytes_Uint32 b0 b1 b2 b3 tl :
  is_byte b0 -> is_byte b1 -> is_byte b2 -> is_byte b3 ->
  exists v, Uint32 (b0 :: b1 :: b2 :: b3 :: tl) = Some v /\
    is_float32 v /\ le_bytes v = [b0; b1; b2; b3].
Proof.
  unfold is_byte. intros H0 H1 H2 H3. eexists. split; [reflexivity|].
  rewrite (lor_shiftl_add b0 b1 8) by lia.
  rewrite (lor_shiftl_add (b0 + b1 * 2 ^ 8) b2 16) by lia.
  rewrite (lor_shiftl_add (b0 + b1 * 2 ^ 8 + b2 * 2 ^ 16) b3 24) by lia.
  set (v := b0 + b1 * 2 ^ 8 + b2 * 2 ^ 16 + b3 * 2 ^ 24).
  split; [unfold is_float32; subst v; lia|].
  unfold le_bytes, to_byte. rewrite !Z.shiftr_div_pow2 by lia.
  assert (E0 : v mod 256 = b0) by (subst v; Z.div_mod_to_equations; lia).
  assert (E1 : (v / 2 ^ 8) mod 256 = b1) by (subst v; Z.div_mod_to_equations; lia).
  assert (E2 : (v / 2 ^ 16) mod 256 = b2) by (subst v; Z.div_mod_to_equations; lia).
  assert (E3 : (v / 2 ^ 24) mod 256 = b3) by (subst v; Z.div_mod_to_equations; lia).
  now rewrite E0, E1, E2, E3.
Qed.

(** A byte sequence of a length that is a multiple of 4 is the encoding of
    a vector. *)
Lemma bytes_are_encoding n : forall bs,
  length bs = (n * 4)%nat -> Forall is_byte bs ->
  exists v, Forall is_float32 v /\ bs = flat_map le_bytes v.
Proof.
  induction n as [|n IH]; intros bs Hlen Hb.
  - destruct bs; [|discriminate]. exists []. split; [constructor|reflexivity].
  - destruct bs as [|b0 [|b1 [|b2 [|b3 bs]]]]; try discriminate.
    apply Forall_cons in Hb as [H0 Hb]. apply Forall_cons in Hb as [H1 Hb].
    apply Forall_cons in Hb as [H2 Hb]. apply Forall_cons in Hb as [H3 Hb].
    destruct (IH bs) as (v & Hv & ->); [cbn in Hlen; lia|assumption|].
    destruct (le_bytes_Uint32 b0 b1 b2 b3 [] H0 H1 H2 H3) as (x & _ & Hx & Hle).
    exists (x :: v). split; [now constructor|]. cbn [flat_map]. now rewrite Hle.
Qed.

(** Decoding and encoding again gives back a byte sequence whose length is
    a multiple of 4: together with the round trip of vectors, the two
    functions are inverse to each other. *)
Theorem bytes_round_trip bs :
  Forall is_byte bs -> (length bs mod 4 = 0)%nat ->
  deserializeFloat32 bs ≫= serializeFloat32 = Some bs.
Proof.
  intros Hb Hlen.
  destruct (bytes_are_encoding (length bs / 4) bs) as (v & Hv & ->); [|assumption|].
  { pose proof (Nat.div_mod_eq (length bs) 4). lia. }
  rewrite (deserializeFloat32_spec v Hv). cbn [mbind option_bind].
  apply serializeFloat32_spec.
Qed.

Lemma bytes_round_trip_witness :
  deserializeFloat32 [1; 0; 192; 127; 255; 255; 255; 255] ≫= serializeFloat32
  = Some [1; 0; 192; 127; 255; 255; 255; 255].
Proof.
  apply (bytes_round_trip [1; 0; 192; 127; 255; 255; 255; 255]); [|reflexivity].
  repeat constructor; unfold is_byte; lia.
Defined.

Lemma mapM_ext_Forall {A B} (f g : A -> option B) l :
  Forall (fun x => f x = g x) l -> mapM f l = mapM g l.
Proof.
  induction 1 as [|x l Hx _ IH]; [reflexivity|]. cbn. now rewrite Hx, IH.
Qed.

Lemma Uint32_app (x tail : list Z) :
  (4 <= length x)%nat -> Uint32 (x ++ tail) = Uint32 x.
Proof.
  destruct x as [|b0 [|b1 [|b2 [|b3 x]]]]; cbn; intros H; try lia. reflexivity.
Qed.

Lemma length_div_app (bs tail : list Z) :
  (length bs mod 4 = 0)%nat -> (length tail < 4)%nat ->
  (length (bs ++ tail) / 4 = length bs / 4)%nat.
Proof.
  intros Hbs Htail. pose proof (Nat.div_mod_eq (length bs) 4) as Hdm.
  rewrite length_app.
  replace (length bs + length tail)%nat
    with (length bs / 4 * 4 + length tail)%nat by lia.
  rewrite Nat.div_add_l by lia. rewrite (Nat.div_small (length tail)) by lia. lia.
Qed.

Lemma deserializeFloat32_app bs tail :
  (length bs mod 4 = 0)%nat -> (length tail < 4)%nat ->
  deserializeFloat32 (bs ++ tail) = deserializeFloat32 bs.
Proof.
  intros Hbs Htail.
  pose proof (Nat.div_mod_eq (length bs) 4) as Hdm.
  unfold deserializeFloat32. rewrite (length_div_app bs tail Hbs Htail).
  apply mapM_ext_Forall, Forall_seq.
  intros i Hi. rewrite drop_app_le by lia.
  rewrite Uint32_app; [reflexivity|]. rewrite length_drop. lia.
Qed.

(** [deserializeFloat32] never panics, returns one element for every four
    bytes, and drops a trailing incomplete element without looking at it. *)
Theorem deserializeFloat32_truncates bs tail :
  (length bs mod 4 = 0)%nat -> (length tail < 4)%nat ->
  deserializeFloat32 (bs ++ tail) = deserializeFloat32 bs /\
  exists v, deserializeFloat32 (bs ++ tail) = Some v /\
    length v = (length bs / 4)%nat.
Proof.
  intros Hbs Htail.
  split; [now apply deserializeFloat32_app|].
  destruct (deserializeFloat32_total (bs ++ tail)) as [v Hv].
  exists v. split; [assumption|].
  unfold deserializeFloat32 in Hv. apply length_mapM in Hv.
  rewrite length_seq, (length_div_app bs tail Hbs Htail) in Hv. lia.
Qed.

Lemma deserializeFloat32_truncates_witness :
  deserializeFloat32 ([0; 0; 128; 63; 0; 0; 0; 0] ++ [7; 7; 7])
  = deserializeFloat32 [0; 0; 128; 63; 0; 0; 0; 0] /\
  exists v, deserializeFloat32 ([0; 0; 128; 63; 0; 0; 0; 0] ++ [7; 7; 7]) = Some v /\
    length v = 2%nat.
Proof.
  apply (deserializeFloat32_truncates [0; 0; 128; 63; 0; 0; 0; 0] [7; 7; 7]);
    [reflexivity|cbn; lia].
Defined.

(** The encoding has four bytes an element, each of them a byte, and every
    decoded element is a 32-bit pattern. *)
Theorem codec_sizes v data :
  Forall is_byte data ->
  (exists bs, serializeFloat32 v = Some bs /\
     length bs = (length v * 4)%nat /\ Forall is_byte bs) /\
  (exists w, deserializeFloat32 data = Some w /\ Forall is_float32 w).
Proof.
  intros Hdata. split.
  - exists (flat_map le_bytes v). split; [apply serializeFloat32_spec|].
    split; [apply length_flat_le_bytes|].
    induction v as [|x v IH]; [constructor|].
    cbn [flat_map]. apply Forall_app. split; [|assumption].
    unfold le_bytes. repeat constructor; apply to_byte_is_byte.
  - pose proof (Nat.div_mod_eq (length data) 4) as Hdm.
    pose proof (Nat.mod_upper_bound (length data) 4 ltac:(lia)) as Hmod.
    assert (Heq : deserializeFloat32 (take (length data / 4 * 4) data
                                      ++ drop (length data / 4 * 4) data)
                  = deserializeFloat32 (take (length data / 4 * 4) data)).
    { apply deserializeFloat32_app.
      - rewrite length_take. replace (_ `min` _)%nat with (length data / 4 * 4)%nat by lia.
        apply Nat.Div0.mod_mul.
      - rewrite length_drop. lia. }
    rewrite take_drop in Heq. rewrite Heq.
    destruct (bytes_are_encoding (length data / 4) (take (length data / 4 * 4) data))
      as (w & Hw & ->).
    { rewrite length_take. lia. }
    { now apply Forall_take. }
    exists w. split; [now apply deserializeFloat32_spec|assumption].
Qed.

Lemma codec_sizes_witness :
  (exists bs, serializeFloat32 [Examples.one32; 5] = Some bs /\
     length bs = (length [Examples.one32; 5%Z] * 4)%nat /\ Forall is_byte bs) /\
  (exists w, deserializeFloat32 [255; 255; 255; 255; 9] = Some w /\ Forall is_float32 w).
Proof.
  apply (codec_sizes [Examples.one32; 5] [255; 255; 255; 255; 9]).
  repeat constructor; unfold is_byte; lia.
Defined.

End CodecBytes.

(** ** Symmetry of the similarity *)

Section Symmetry.
Import Float64 Similarity.

Lemma mul_comm x y : mul x y = mul y x.
Proof.
  unfold mul. destruct x as [sx|sx| |sx mx ex], y as [sy|sy| |sy my ey];
    cbn [SFmul]; rewrite ?(xorb_comm sx sy); try reflexivity.
  now rewrite (Pos.mul_comm mx my), (Z.add_comm ex ey).
Qed.

Lemma dot64_comm a : forall b s,
  fold_left (fun d xy => add d (mul (of_float32 (fst xy)) (of_float32 (snd xy)))) (zip a b) s
  = fold_left (fun d xy => add d (mul (of_float32 (fst xy)) (of_float32 (snd xy)))) (zip b a) s.
Proof.
  induction a as [|x a IH]; intros [|y b] s; try reflexivity.
  cbn [zip zip_with fold_left fst snd]. rewrite (mul_comm (of_float32 x)). apply IH.
Qed.

(** [cosineSimilarity] gives the same value on [a], [b] and on [b], [a],
    whatever the vectors: the same number, zero or infinity, sign included,
    or NaN both times.  The values are those of binary64 in which NaN is
    one value, so nothing is said of the payload of a NaN result. *)
Theorem cosineSimilarity_symmetric a b :
  cosineSimilarity a b = cosineSimilarity b a.
Proof.
  unfold cosineSimilarity.
  rewrite (Nat.eqb_sym (length b) (length a)).
  destruct (Nat.eqb_spec (length a) (length b)) as [Hlen|]; [|reflexivity].
  cbn [negb]. rewrite (cosine_loop_sums a b Hlen), (cosine_loop_sums b a (eq_sym Hlen)).
  cbn [normA normB dotProduct].
  rewrite (orb_comm (eqb (sqnorm64 b) zero)).
  rewrite (mul_comm (sqrt (sqnorm64 b))).
  unfold dot64. now rewrite (dot64_comm a b).
Qed.

End Symmetry.

(** ** The terminal front end *)

Section FrontFacts.
Import Codec Store Ollama Props Ordering Examples Front FrontExamples.

Lemma string_length_append (a b : string) :
  String.length (a +:+ b) = (String.length a + String.length b)%nat.
Proof.
  induction a as [|c a IH]; [reflexivity|].
  change (String c a +:+ b) with (String c (a +:+ b)).
  cbn [String.length]. now rewrite IH.
Qed.

Lemma string_length_substring n : forall s,
  (n <= String.length s)%nat -> String.length (String.substring 0 n s) = n.
Proof.
  induction n as [|n IH]; intros [|c s] Hn; cbn in *; try reflexivity; try lia.
  rewrite IH by lia. reflexivity.
Qed.

Lemma string_prefix_substring n : forall s,
  String.prefix (String.substring 0 n s) s = true.
Proof.
  induction n as [|n IH]; intros [|c s]; cbn; try reflexivity.
  destruct (Ascii.ascii_dec c c); [apply IH|congruence].
Qed.

(** [truncate] panics exactly when the string is longer than [max] and
    [max] is below 3.  Otherwise the result has at most [max] bytes: it is
    the string itself when that fits, and else its first [max - 3] bytes
    followed by three dots. *)
Theorem truncate_spec s max :
  (truncate s max = None <-> max < Z.of_nat (String.length s) /\ max < 3) /\
  (forall t, truncate s max = Some t ->
     Z.of_nat (String.length t) <= max /\
     (Z.of_nat (String.length s) <= max -> t = s) /\
     (max < Z.of_nat (String.length s) ->
      exists p, t = p +:+ "..." /\ String.prefix p s = true /\
        Z.of_nat (String.length p) = max - 3)).
Proof.
  unfold truncate.
  destruct (Z.leb_spec (Z.of_nat (String.length s)) max) as [Hfit|Hlong].
  { split; [split; [discriminate|lia]|].
    intros t [= <-]. split; [assumption|]. split; [reflexivity|lia]. }
  destruct (Z.ltb_spec (max - 3) 0) as [Hneg|Hpos].
  { split; [split; [lia|reflexivity]|discriminate]. }
  split; [split; [discriminate|lia]|].
  intros t [= <-].
  assert (Hlen : String.length (String.substring 0 (Z.to_nat (max - 3)) s)
                 = Z.to_nat (max - 3)) by (apply string_length_substring; lia).
  split; [|split; [lia|]].
  - rewrite string_length_append, Hlen. cbn [String.length]. lia.
  - intros _. eexists. split; [reflexivity|].
    split; [apply string_prefix_substring|]. rewrite Hlen. lia.
Qed.

(** *** Saving a turn *)

Lemma truncate_50 s : is_Some (truncate s 50).
Proof.
  unfold truncate. destruct (_ <=? 50); [eauto|]. cbn. eauto.
Qed.

Lemma has_message_messages db db' id :
  messages db' = messages db -> has_message db' id = has_message db id.
Proof. unfold has_message. now intros ->. Qed.

Lemma has_conversation_ids db db' id :
  cr_id <$> conversations db' = cr_id <$> conversations db ->
  has_conversation db' id = has_conversation db id.
Proof. unfold has_conversation. now intros ->. Qed.

(** The title that [saveToMemory] gives to a conversation it creates. *)
Lemma new_title_total (m : Session) :
  exists title,
    match chat m with
    | [] => Some "New Chat"
    | first :: _ => truncate (Content first) 50
    end = Some title.
Proof.
  destruct (chat m) as [|first rest]; [eauto|].
  destruct (truncate_50 (Content first)) as [t Ht]. eauto.
Qed.

Lemma ensure_conversation_spec env m db :
  exists db1,
    ensure_conversation env m db = Some db1 /\
    messages db1 = messages db /\
    foreign_keys db1 = foreign_keys db /\
    has_conversation db1 (conversationID m) = true /\
    (has_conversation db (conversationID m) = true -> db1 = db) /\
    (has_conversation db (conversationID m) = false ->
     exists title,
       match chat m with
       | [] => Some "New Chat"
       | first :: _ => truncate (Content first) 50
       end = Some title /\
       conversations db1
       = conversations db ++ [new_conversation_row (now_create env) (conversationID m) title]).
Proof.
  unfold ensure_conversation.
  destruct (has_conversation db (conversationID m)) eqn:Hc.
  - destruct (GetConversation db (conversationID m)) eqn:Hg.
    + exists db. repeat split; auto. discriminate.
    + apply has_conversation_spec in Hc as (r & Hr & Hid).
      destruct (GetConversation_is_Some db r Hr) as [c Hc]. congruence.
  - unfold GetConversation. rewrite (filter_id_absent db (conversationID m) Hc).
    destruct (new_title_total m) as [title Ht]. rewrite Ht. cbn [mbind option_bind].
    unfold CreateConversation, insert_conversation. cbn [cr_id]. rewrite Hc. cbn [snd].
    eexists. split; [reflexivity|]. cbn [messages foreign_keys conversations].
    repeat split; auto.
    + unfold has_conversation. cbn [conversations]. rewrite fmap_app.
      apply bool_decide_eq_true, elem_of_app. right. left.
    + discriminate.
    + intros _. eauto.
Qed.

(** An iteration of the loop keeps the conversations' ids and adds its row
    or nothing. *)
Lemma save_at_effect env m db i msg :
  chat m !! i = Some msg ->
  exists db',
    save_at env m db i = Some db' /\
    cr_id <$> conversations db' = cr_id <$> conversations db /\
    foreign_keys db' = foreign_keys db /\
    (messages db' = messages db \/
     messages db' = messages db ++ [stored_row env m i msg]).
Proof.
  intros Hi. unfold save_at. rewrite Hi. cbn [mbind option_bind].
  destruct (SaveMessage db (now_save env i) (memory_message env m i msg))
    as [[r db']|] eqn:Hs.
  2: { exfalso. revert Hs. unfold SaveMessage. rewrite embedding_blob_spec.
       cbn [mbind option_bind]. now destruct (insert_message _ _). } cbn [mbind option_bind snd]. exists db'. split; [reflexivity|].
  destruct (SaveMessage_inv _ _ _ _ _ Hs) as (blob & Hblob & [(e & _ & _ & ->)|(_ & _ & _ & ->)]).
  - auto.
  - rewrite embedding_blob_spec in Hblob. injection Hblob as <-.
    cbn [conversations messages foreign_keys]. rewrite touch_ids. auto.
Qed.

Lemma save_at_success env m db i msg :
  chat m !! i = Some msg ->
  has_message db (uuid env i) = false ->
  has_conversation db (conversationID m) = true ->
  save_at env m db i
  = Some {| foreign_keys := foreign_keys db;
            conversations := touch (now_save env i) (conversationID m) <$> conversations db;
            messages := messages db ++ [stored_row env m i msg] |}.
Proof.
  intros Hi Hm Hc. unfold save_at. rewrite Hi. cbn [mbind option_bind].
  unfold SaveMessage. rewrite embedding_blob_spec. cbn [mbind option_bind].
  unfold insert_message. cbn [row_of_message mr_id mr_conversation_id memory_message m_ID m_ConversationID].
  rewrite Hm, Hc, andb_false_r. reflexivity.
Qed.

(** [saveToMemory] with memory enabled never panics.  Afterwards the
    conversation of the session exists: it is created, as the last row,
    when it was missing, and no other conversation is added.  The count
    reported is that of the store afterwards, at most two more than before,
    and nothing is saved from a chat of fewer than two messages. *)
Theorem saveToMemory_ensures_conversation env m db :
  store m = Some db -> MemoryEnabled m = true ->
  exists count db',
    saveToMemory env m = Some (Some count, Some db') /\
    count = GetMessageCount db' /\
    has_conversation db' (conversationID m) = true /\
    cr_id <$> conversations db'
    = (cr_id <$> conversations db)
      ++ (if has_conversation db (conversationID m) then [] else [conversationID m]) /\
    GetMessageCount db <= count <= GetMessageCount db + 2 /\
    ((length (chat m) < 2)%nat -> messages db' = messages db).
Proof.
  intros Hstore Hon. unfold saveToMemory. rewrite Hstore, Hon. cbn [negb].
  destruct (ensure_conversation_spec env m db) as (db1 & -> & Hm1 & _ & Hc1 & Hsame & Hnew).
  cbn [mbind option_bind].
  assert (Hids : cr_id <$> conversations db1
                 = (cr_id <$> conversations db)
                   ++ (if has_conversation db (conversationID m) then []
                       else [conversationID m])).
  { destruct (has_conversation db (conversationID m)).
    - rewrite (Hsame eq_refl), app_nil_r. reflexivity.
    - destruct (Hnew eq_refl) as (title & _ & ->). now rewrite fmap_app. }
  destruct (Nat.leb_spec 2 (length (chat m))) as [Hlen|Hlen].
  - destruct (lookup_lt_is_Some_2 (chat m) (length (chat m) - 2)) as [u Hu]; [lia|].
    destruct (lookup_lt_is_Some_2 (chat m) (length (chat m) - 1)) as [a Ha]; [lia|].
    destruct (save_at_effect env m db1 _ u Hu) as (db2 & -> & Hids2 & _ & Hm2).
    cbn [mbind option_bind].
    destruct (save_at_effect env m db2 _ a Ha) as (db3 & -> & Hids3 & _ & Hm3).
    exists (GetMessageCount db3), db3. split; [reflexivity|]. split; [reflexivity|].
    split; [|split; [|split]].
    + rewrite (has_conversation_ids db1 db3); [assumption|congruence].
    + congruence.
    + unfold GetMessageCount.
      destruct Hm2 as [Hm2|Hm2], Hm3 as [Hm3|Hm3]; rewrite Hm3, Hm2, Hm1;
        rewrite ?length_app; cbn [length]; lia.
    + lia.
  - exists (GetMessageCount db1), db1. split; [reflexivity|]. split; [reflexivity|].
    split; [assumption|]. split; [assumption|]. split; [|auto].
    unfold GetMessageCount. rewrite Hm1. lia.
Qed.

Lemma saveToMemory_ensures_conversation_witness :
  exists count db',
    saveToMemory env0 session_down = Some (Some count, Some db') /\
    count = GetMessageCount db' /\
    has_conversation db' (conversationID session_down) = true /\
    cr_id <$> conversations db'
    = (cr_id <$> conversations db_msgs)
      ++ (if has_conversation db_msgs (conversationID session_down) then []
          else [conversationID session_down]) /\
    GetMessageCount db_msgs <= count <= GetMessageCount db_msgs + 2 /\
    ((length (chat session_down) < 2)%nat -> messages db' = messages db_msgs).
Proof.
  apply (saveToMemory_ensures_conversation env0 session_down db_msgs); reflexivity.
Defined.

(** The run of [saveToMemory] on a turn whose identifiers are new to the
    store and differ from each other. *)
Lemma saveToMemory_turn env m db earlier u a :
  store m = Some db -> MemoryEnabled m = true ->
  chat m = earlier ++ [u; a] ->
  has_message db (uuid env (length earlier)) = false ->
  has_message db (uuid env (S (length earlier))) = false ->
  uuid env (length earlier) <> uuid env (S (length earlier)) ->
  exists db1,
    ensure_conversation env m db = Some db1 /\
    saveToMemory env m
    = Some (Some (GetMessageCount db + 2),
            Some {| foreign_keys := foreign_keys db1;
                    conversations :=
                      touch (now_save env (S (length earlier))) (conversationID m)
                        <$> (touch (now_save env (length earlier)) (conversationID m)
                               <$> conversations db1);
                    messages :=
                      messages db ++ [stored_row env m (length earlier) u;
                                      stored_row env m (S (length earlier)) a] |}).
Proof.
  intros Hstore Hon Hchat Hf1 Hf2 Hne.
  unfold saveToMemory. rewrite Hstore, Hon. cbn [negb].
  destruct (ensure_conversation_spec env m db) as (db1 & He & Hm1 & _ & Hc1 & _ & _).
  exists db1. split; [exact He|]. rewrite He.
  cbn [mbind option_bind].
  assert (Hlen : length (chat m) = (length earlier + 2)%nat)
    by (rewrite Hchat, length_app; reflexivity).
  rewrite Hlen. rewrite (proj2 (Nat.leb_le _ _)) by lia.
  replace (length earlier + 2 - 2)%nat with (length earlier) by lia.
  replace (length earlier + 2 - 1)%nat with (S (length earlier)) by lia.
  assert (Hu : chat m !! length earlier = Some u).
  { rewrite Hchat. now rewrite lookup_app_r, Nat.sub_diag by lia. }
  assert (Ha : chat m !! S (length earlier) = Some a).
  { rewrite Hchat. rewrite lookup_app_r by lia.
    now replace (S (length earlier) - length earlier)%nat with 1%nat by lia. }
  rewrite (save_at_success env m db1 _ u Hu); [|now rewrite (has_message_messages db db1)|assumption].
  cbn [mbind option_bind].
  rewrite (save_at_success env m _ _ a Ha).
  - cbn [mbind option_bind foreign_keys conversations messages].
    rewrite Hm1, <- app_assoc. cbn [app]. do 3 f_equal.
    unfold GetMessageCount. cbn [messages]. rewrite length_app. cbn [length]. lia.
  - unfold has_message. cbn [messages]. rewrite Hm1, fmap_app. apply bool_decide_eq_false.
    rewrite elem_of_app. intros [Hin|Hin].
    + unfold has_message in Hf2. apply bool_decide_eq_false in Hf2. contradiction.
    + cbn in Hin. apply list_elem_of_singleton in Hin. congruence.
  - unfold has_conversation. cbn [conversations]. rewrite touch_ids. exact Hc1.
Qed.

(** The embedding column of the row that holds [msg]: NULL for a message
    that is not a user message, for one whose embedding could not be
    generated and for one whose embedding has no element, and the bytes of
    the embedding otherwise. *)
Lemma stored_row_embedding env m i msg :
  (Role msg <> RoleUser -> mr_embedding (stored_row env m i msg) = None) /\
  (forall err, Embed (client m) (Content msg) = inl err ->
     mr_embedding (stored_row env m i msg) = None) /\
  (Role msg = RoleUser -> forall e, Embed (client m) (Content msg) = inr e ->
     mr_embedding (stored_row env m i msg)
     = match e with [] => None | _ :: _ => Some (flat_map le_bytes e) end).
Proof.
  unfold stored_row, memory_message, embedding_for.
  cbn [row_of_message mr_embedding m_Embedding].
  destruct (decide (Role msg = RoleUser)) as [Hrole|Hrole].
  - split; [contradiction|]. split.
    + intros err ->. reflexivity.
    + intros _ e ->. now destruct e.
  - split; [reflexivity|]. split; [reflexivity|contradiction].
Qed.

(** With identifiers that are new to the store and differ from each other,
    [saveToMemory] stores the last two messages of the chat, in their
    order, and reports two messages more.  Each row has the identifier
    drawn for it, the conversation of the session, and the role, the
    content and the time of its message.  Its embedding column holds the
    bytes of the embedding of a user message; a user message whose
    embedding could not be generated or has no element, and a message that
    is not a user message, are stored all the same, with NULL there. *)
Theorem saveToMemory_saves_last_two env m db earlier u a :
  store m = Some db -> MemoryEnabled m = true ->
  chat m = earlier ++ [u; a] ->
  has_message db (uuid env (length earlier)) = false ->
  has_message db (uuid env (S (length earlier))) = false ->
  uuid env (length earlier) <> uuid env (S (length earlier)) ->
  exists db' ru ra,
    saveToMemory env m = Some (Some (GetMessageCount db + 2), Some db') /\
    messages db' = messages db ++ [ru; ra] /\
    (mr_id ru = uuid env (length earlier) /\
     mr_conversation_id ru = conversationID m /\
     mr_role ru = Role u /\ mr_content ru = Content u /\ mr_created_at ru = Time u) /\
    (mr_id ra = uuid env (S (length earlier)) /\
     mr_conversation_id ra = conversationID m /\
     mr_role ra = Role a /\ mr_content ra = Content a /\ mr_created_at ra = Time a) /\
    (forall msg row, (msg, row) ∈ [(u, ru); (a, ra)] ->
       (Role msg <> RoleUser -> mr_embedding row = None) /\
       (forall err, Embed (client m) (Content msg) = inl err -> mr_embedding row = None) /\
       (Role msg = RoleUser -> forall e, Embed (client m) (Content msg) = inr e ->
          mr_embedding row
          = match e with [] => None | _ :: _ => Some (flat_map le_bytes e) end)).
Proof.
  intros Hstore Hon Hchat Hf1 Hf2 Hne.
  destruct (saveToMemory_turn env m db earlier u a Hstore Hon Hchat Hf1 Hf2 Hne)
    as (db1 & _ & Hsave).
  eexists. exists (stored_row env m (length earlier) u), (stored_row env m (S (length earlier)) a).
  split; [exact Hsave|]. split; [reflexivity|].
  split; [repeat split|]. split; [repeat split|].
  intros msg row Hin.
  apply elem_of_cons in Hin as [[= -> ->]|Hin]; [apply stored_row_embedding|].
  apply list_elem_of_singleton in Hin as [= -> ->]. apply stored_row_embedding.
Qed.

Lemma saveToMemory_saves_last_two_witness :
  exists db' ru ra,
    saveToMemory env0 session_up = Some (Some (GetMessageCount db_msgs + 2), Some db') /\
    messages db' = messages db_msgs ++ [ru; ra] /\
    (mr_id ru = uuid env0 0 /\
     mr_conversation_id ru = conversationID session_up /\
     mr_role ru = Role question /\ mr_content ru = Content question /\
     mr_created_at ru = Time question) /\
    (mr_id ra = uuid env0 1 /\
     mr_conversation_id ra = conversationID session_up /\
     mr_role ra = Role answer /\ mr_content ra = Content answer /\
     mr_created_at ra = Time answer) /\
    (forall msg row, (msg, row) ∈ [(question, ru); (answer, ra)] ->
       (Role msg <> RoleUser -> mr_embedding row = None) /\
       (forall err, Embed (client session_up) (Content msg) = inl err ->
          mr_embedding row = None) /\
       (Role msg = RoleUser -> forall e, Embed (client session_up) (Content msg) = inr e ->
          mr_embedding row
          = match e with [] => None | _ :: _ => Some (flat_map le_bytes e) end)).
Proof.
  apply (saveToMemory_saves_last_two env0 session_up db_msgs [] question answer);
    try reflexivity. discriminate.
Defined.

(** *** Saving a turn, then loading the last conversation *)

Lemma touch_absent now id (l : list conversation_row) :
  id ∉ cr_id <$> l -> touch now id <$> l = l.
Proof.
  induction l as [|r l IH]; intros Hid; [reflexivity|].
  rewrite fmap_cons in Hid. apply not_elem_of_cons in Hid as [Hne Hid].
  rewrite fmap_cons, IH by assumption. unfold touch.
  now rewrite decide_False by congruence.
Qed.

Lemma filter_none {A} (P : A -> Prop) `{!forall x, Decision (P x)} (l : list A) :
  Forall (fun x => ~ P x) l -> filter P l = [].
Proof.
  induction 1 as [|x l Hx _ IH]; [reflexivity|].
  now rewrite filter_cons, decide_False.
Qed.

Lemma chat_of_stored env m i msg :
  chat_message (scan_message (stored_row env m i msg)) = msg.
Proof. now destruct msg. Qed.

(** A turn saved in a conversation that is new to the store is what
    [loadLastConversation] brings back, when, in the order of the stored
    text, the time of the last save comes after every update time in the
    store and the time of the first message before that of the second: the
    session then shows the two messages of the turn, in their order, under
    the id of that conversation. *)
Theorem saveToMemory_then_load env m db earlier u a :
  reachable db ->
  store m = Some db -> MemoryEnabled m = true ->
  chat m = earlier ++ [u; a] ->
  has_message db (uuid env (length earlier)) = false ->
  has_message db (uuid env (S (length earlier))) = false ->
  uuid env (length earlier) <> uuid env (S (length earlier)) ->
  has_conversation db (conversationID m) = false ->
  Forall (fun row => mr_conversation_id row <> conversationID m) (messages db) ->
  text_strictly_before (Time u) (Time a) ->
  Forall (fun r => text_strictly_before (cr_updated_at r) (now_save env (S (length earlier))))
         (conversations db) ->
  exists count db' c,
    saveToMemory env m = Some (Some count, Some db') /\
    loadLastConversation (with_store m db') = LoadConversation c /\
    chat (load_conversation (with_store m db') c) = [u; a] /\
    conversationID (load_conversation (with_store m db') c) = conversationID m.
Proof.
  intros Hreach Hstore Hon Hchat Hf1 Hf2 Hne Habsent Horphan Htime Hlater.
  destruct (saveToMemory_turn env m db earlier u a Hstore Hon Hchat Hf1 Hf2 Hne)
    as (db1 & He & Hsave).
  destruct (ensure_conversation_spec env m db) as (db0 & He0 & _ & _ & _ & _ & Hnew).
  rewrite He in He0. injection He0 as <-.
  destruct (Hnew Habsent) as (title & _ & Hc1).
  pose proof (reachable_conversation_ids db Hreach) as Hnd.
  assert (Hfree : conversationID m ∉ cr_id <$> conversations db).
  { unfold has_conversation in Habsent. now apply bool_decide_eq_false in Habsent. }
  match type of Hsave with _ = Some (_, Some ?d) => set (db' := d) in * end.
  set (row := {| cr_id := conversationID m; cr_title := title;
                 cr_created_at := now_create env;
                 cr_updated_at := now_save env (S (length earlier)) |}).
  assert (Hconv : conversations db' = conversations db ++ [row]).
  { unfold db'. cbn [conversations]. rewrite Hc1, !fmap_app.
    rewrite !(touch_absent _ _ (conversations db)) by assumption. f_equal.
    cbn [fmap list_fmap]. unfold touch, new_conversation_row. cbn [cr_id].
    destruct (decide (conversationID m = conversationID m)); [|contradiction].
    cbn [cr_id]. destruct (decide _); [reflexivity|contradiction]. }
  assert (Hmsgs : messages db'
                  = messages db ++ [stored_row env m (length earlier) u;
                                    stored_row env m (S (length earlier)) a])
    by reflexivity.
  clearbody db'.
  assert (Hrow : row ∈ conversations db').
  { rewrite Hconv. apply elem_of_app. right. left. }
  assert (Hnd' : NoDup (cr_id <$> conversations db')).
  { rewrite Hconv, fmap_app. apply NoDup_app. split; [assumption|].
    split; [|apply NoDup_singleton].
    intros x Hx Hx'. apply list_elem_of_singleton in Hx'. now subst x. }
  (* the last conversation is this one *)
  destruct (recent_conversations db' 1) as [|r rest] eqn:Hrec.
  { apply recent_nil in Hrec. rewrite Hrec in Hrow. inversion Hrow. }
  destruct (recent_head db' r rest Hrec) as [Hr Hmax].
  assert (r = row).
  { rewrite Hconv in Hr. apply elem_of_app in Hr as [Hr|Hr].
    - rewrite Forall_forall in Hlater. specialize (Hlater r Hr).
      specialize (Hmax row Hrow). unfold text_strictly_before, text_before in *.
      cbn [cr_updated_at row] in Hmax. congruence.
    - now apply list_elem_of_singleton in Hr. }
  subst r.
  assert (Hmo : messages_of db' (conversationID m)
                = [stored_row env m (length earlier) u;
                   stored_row env m (S (length earlier)) a]).
  { unfold messages_of. rewrite Hmsgs, filter_app.
    rewrite (filter_none _ (messages db)) by assumption. cbn [app].
    rewrite !filter_cons, filter_nil, !decide_True by reflexivity.
    unfold order_by. cbn [foldr insert_sorted].
    cbn [stored_row row_of_message memory_message mr_created_at m_CreatedAt].
    now rewrite (text_le_total _ _ Htime). }
  exists (GetMessageCount db + 2), db'.
  eexists. split; [exact Hsave|].
  unfold loadLastConversation, with_store. cbn [store].
  unfold GetLastConversation. rewrite Hrec.
  rewrite (GetConversation_row db' row Hnd' Hrow). cbn [cr_id row]. rewrite Hmo.
  split; [reflexivity|].
  unfold load_conversation. cbn [c_Messages c_ID fmap list_fmap chat conversationID].
  rewrite !chat_of_stored. split; reflexivity.
Qed.

Lemma saveToMemory_then_load_witness :
  exists count db' c,
    saveToMemory env0 session_up = Some (Some count, Some db') /\
    loadLastConversation (with_store session_up db') = LoadConversation c /\
    chat (load_conversation (with_store session_up db') c) = [question; answer] /\
    conversationID (load_conversation (with_store session_up db') c)
    = conversationID session_up.
Proof.
  apply (saveToMemory_then_load env0 session_up db_msgs [] question answer);
    try reflexivity.
  - exact reachable_db_msgs.
  - discriminate.
  - repeat constructor; discriminate.
  - repeat constructor.
Defined.

End FrontFacts.

(** ** What saving leaves alone *)

Section Frames.
Import Codec Float64 Similarity Store Ollama Props Ordering Examples.

(** [SaveMessage], successful or not, changes nothing of what
    [GetConversation] returns for the other conversations. *)
Theorem SaveMessage_other_conversations db now msg r db' id :
  SaveMessage db now msg = Some (r, db') ->
  id <> m_ConversationID msg ->
  GetConversation db' id = GetConversation db id.
Proof.
  intros Hs Hne.
  destruct (SaveMessage_inv _ _ _ _ _ Hs) as (blob & _ & [(e & _ & _ & ->)|(_ & _ & _ & ->)]);
    [reflexivity|].
  unfold GetConversation, messages_of. cbn [conversations messages].
  rewrite filter_touch, filter_app, filter_cons.
  rewrite decide_False by (cbn; congruence). rewrite filter_nil, app_nil_r.
  destruct (filter (fun x => cr_id x = id) (conversations db)) as [|r0 rs] eqn:Hf;
    [reflexivity|].
  assert (Hid : cr_id r0 = id).
  { assert (Hr : r0 ∈ filter (fun x => cr_id x = id) (conversations db)) by (rewrite Hf; left).
    now apply list_elem_of_filter in Hr as [? _]. }
  cbn [fmap list_fmap]. unfold touch. rewrite decide_False by congruence. reflexivity.
Qed.

Lemma SaveMessage_other_conversations_witness :
  GetConversation (saved db_msgs 40 msg_orphan) "c1" = GetConversation db_msgs "c1".
Proof.
  refine (SaveMessage_other_conversations db_msgs 40 msg_orphan None
            (saved db_msgs 40 msg_orphan) "c1" eq_refl _).
  discriminate.
Defined.

(** Neither [CreateConversation] nor the [SaveMessage] of a message whose
    embedding has length 0 changes any result of [Search]. *)
Theorem Search_unchanged_without_embedding db now msg r db' q k :
  len (m_Embedding msg) = 0%nat ->
  SaveMessage db now msg = Some (r, db') ->
  Search db' q k = Search db q k /\
  (forall id title, Search (snd (CreateConversation db now id title)) q k = Search db q k).
Proof.
  intros Hlen Hs. split.
  - destruct (SaveMessage_inv _ _ _ _ _ Hs) as (blob & Hblob & [(e & _ & _ & ->)|(_ & _ & _ & ->)]);
      [reflexivity|].
    rewrite embedding_blob_spec, decide_True in Hblob by assumption. injection Hblob as <-.
    unfold Search. cbn [messages]. rewrite filter_app, filter_cons.
    rewrite decide_False by (cbn; intros [? [=]]). now rewrite filter_nil, app_nil_r.
  - intros id title. unfold Search.
    destruct (CreateConversation db now id title) as [r0 db0] eqn:Hc. cbn [snd].
    now rewrite (CreateConversation_messages _ _ _ _ _ _ Hc).
Qed.

Lemma Search_unchanged_without_embedding_witness :
  Search (saved db_msgs 40 msg_orphan) [one32; 0] 5 = Search db_msgs [one32; 0] 5 /\
  (forall id title,
     Search (snd (CreateConversation db_msgs 40 id title)) [one32; 0] 5
     = Search db_msgs [one32; 0] 5).
Proof.
  exact (Search_unchanged_without_embedding db_msgs 40 msg_orphan None
           (saved db_msgs 40 msg_orphan) [one32; 0] 5 eq_refl eq_refl).
Defined.



End Frames.
